(** * LocalizationStage of the traffic manager: a shallow embedding

    Source: [TrafficManager/source/pipeline/LocalizationStage.cpp].

    Modelling conventions.
    - C++ [float] values are modelled by the rational numbers they denote
      ([Q]).  Where the source computes in [float] and the exact result need
      not be a [float] (the product [3.0f * velocity], the constants [3.6f]
      and [0.1f], the quotient [50 / 3.6f], the difference
      [1 - dot_product]) the result is rounded to the nearest [float], ties
      to even, by [round_float].  Doubling, halving and negating a [float]
      and [std::pow(x, 2)], which is computed in [double], are exact.
      Infinities and NaN are outside the model.  Comparisons are the boolean
      comparisons of the source.
    - [std::vector::at] and [std::deque::at] raise [std::out_of_range]; this is
      the outcome [OutOfRange].  [front()] and [back()] of an empty deque have
      no defined behaviour; this is the outcome [Undefined].
    - The only loop of the file without an evident bound is the one that
      populates the buffer; it runs on fuel and [OutOfFuel] stands for a run
      that has not finished within it.
    - Containers are lists; sizes and loop counters are natural numbers (the
      32 bit width of [uint] is not reached by any container of the model).
    - Everything the file calls but does not define (actors, waypoints, the
      in-memory map, the traffic distributor, the geometry helpers, the
      messengers, [rand]) is a member of the class [World].
    - The constructor, [Action], [DataSender] and [DrawBuffer] are embedded;
      the calls of [DrawPoint] are collected in a list.  The empty
      [DataReceiver], the empty destructor and the unused local
      [pre_selection_id] are left out. *)

From Stdlib Require Import ZArith QArith Qround Qpower Lia Lqa Bool.
From stdpp Require Import base option list.

Set Default Proof Using "Type".

(** ** Scalars *)

Definition float := Q.

(** Rounding to the nearest [float] (IEEE 754 binary32: 24 bits of
    precision, least exponent -126, ties to even). *)

(** The integer [e] with [2 ^ e <= q < 2 ^ (e + 1)], for [q] above 0. *)
Definition floor_log2 (q : Q) : Z :=
  let e := (Z.log2 (Qnum q) - Z.log2 (Zpos (Qden q)))%Z in
  if Qle_bool (2 ^ e) q then e else (e - 1)%Z.

(** The integer nearest to [q], the even one of two that are as near. *)
Definition round_half_even (q : Q) : Z :=
  let f := Qfloor q in
  match (q - inject_Z f ?= 1 # 2)%Q with
  | Lt => f
  | Gt => (f + 1)%Z
  | Eq => if Z.even f then f else (f + 1)%Z
  end.

(** Floats with exponent [e] are the multiples of [2 ^ (e - 23)]; below
    [2 ^ (-126)] they are the multiples of [2 ^ (-149)]. *)
Definition round_positive (q : Q) : Q :=
  let e := Z.max (floor_log2 q) (-126) in
  let ulp := (2 ^ (e - 23))%Q in
  (inject_Z (round_half_even (q / ulp)) * ulp)%Q.

Definition round_float (q : Q) : float :=
  match (q ?= 0)%Q with
  | Eq => 0%Q
  | Gt => round_positive q
  | Lt => (- round_positive (- q))%Q
  end.

(** [a < b] and [a <= b] on floats, as booleans. *)
Definition flt (a b : float) : bool := negb (Qle_bool b a).
Definition fle (a b : float) : bool := Qle_bool a b.

(** [std::max(a, b)] is [(a < b) ? b : a]. *)
Definition std_max (a b : float) : float := if flt a b then b else a.

(** [std::ceil]. *)
Definition std_ceil (a : float) : float := inject_Z (Qceiling a).

(** [std::pow(a, 2)]. *)
Definition pow2 (a : float) : float := (a * a)%Q.

Module LocalizationConstants.
Definition WAYPOINT_TIME_HORIZON : float := 3%Q.
Definition MINIMUM_HORIZON_LENGTH : float := 25%Q.
Definition TARGET_WAYPOINT_TIME_HORIZON : float := (1 # 2)%Q.
Definition TARGET_WAYPOINT_HORIZON_LENGTH : float := 2%Q.
Definition MINIMUM_JUNCTION_LOOK_AHEAD : float := 3%Q.
Definition HIGHWAY_SPEED : float := round_float (50 / round_float (36 # 10)).
End LocalizationConstants.
Import LocalizationConstants.

(** ** Outcomes of fallible code *)

Inductive outcome (A : Type) : Type :=
| Returns (a : A)
| OutOfRange
| Undefined
| OutOfFuel.
Arguments Returns {A} a.
Arguments OutOfRange {A}.
Arguments Undefined {A}.
Arguments OutOfFuel {A}.

#[global] Instance outcome_ret : MRet outcome := @Returns.
#[global] Instance outcome_bind : MBind outcome := fun A B f m =>
  match m with
  | Returns a => f a
  | OutOfRange => OutOfRange
  | Undefined => Undefined
  | OutOfFuel => OutOfFuel
  end.

(** [v.at(i)] *)
Definition vector_at {A} (v : list A) (i : nat) : outcome A :=
  match v !! i with
  | Some x => Returns x
  | None => OutOfRange
  end.

(** [d.front()] and [d.back()] *)
Definition deque_front {A} (d : list A) : outcome A :=
  match d with
  | x :: _ => Returns x
  | [] => Undefined
  end.

Definition deque_back {A} (d : list A) : outcome A :=
  match last d with
  | Some x => Returns x
  | None => Undefined
  end.

(** ** The collaborators of the stage *)

Definition ActorId := nat.

(** [GeoIds]: road, section and lane identifiers. *)
Record GeoIds := { road_id : Z; section_id : Z; lane_id : Z }.

(** A frame of a double-buffered pair, by name: a data packet carries a
    shared pointer to the frame, not its contents. *)
Inductive FrameId := frame_a | frame_b.

Record DataPacket := { id : Z; data : FrameId }.

(** [cg::Location] *)
Abbreviation Location := (Q * Q * Q)%type.

Class World := {
  (* cc::Actor / cc::Vehicle *)
  Actor : Type;
  GetId : Actor -> ActorId;
  GetLocation : Actor -> Location;
  (* vehicle->GetVelocity().Length() *)
  GetVelocityLength : Actor -> float;
  GetSpeedLimit : Actor -> float;
  (* SimpleWaypoint *)
  SimpleWaypointPtr : Type;
  WaypointLocation : SimpleWaypointPtr -> Location;
  GetRoadId : SimpleWaypointPtr -> Z;
  GetSectionId : SimpleWaypointPtr -> Z;
  GetLaneId : SimpleWaypointPtr -> Z;
  CheckJunction : SimpleWaypointPtr -> bool;
  GetNextWaypoint : SimpleWaypointPtr -> list SimpleWaypointPtr;
  DistanceSquared : SimpleWaypointPtr -> SimpleWaypointPtr -> float;
  (* InMemoryMap::GetWaypoint *)
  GetWaypoint : Location -> SimpleWaypointPtr;
  (* geometry helpers *)
  DeviationDotProduct : Actor -> Location -> float;
  DeviationCrossProduct : Actor -> Location -> float;
  (* TrafficDistributor: its state and its two entry points; the buffer
     list, the index map and the actor list are read, not written *)
  TrafficDistributor : Type;
  UpdateVehicleRoadPosition : TrafficDistributor -> ActorId -> GeoIds -> TrafficDistributor;
  AssignLaneChange :
    TrafficDistributor -> Actor -> SimpleWaypointPtr -> GeoIds ->
    list (list SimpleWaypointPtr) -> list (ActorId * nat) -> list Actor ->
    option SimpleWaypointPtr * TrafficDistributor;
  (* rand() and its hidden state *)
  RandState : Type;
  rand : RandState -> nat * RandState;
  (* Messenger: GetState and SendData *)
  Messenger : Type;
  GetState : Messenger -> Z;
  SendData : Messenger -> DataPacket -> Z * Messenger
}.

(** [Buffer] is a deque of waypoints, [BufferList] a vector of buffers. *)
Abbreviation Buffer := (list SimpleWaypointPtr).
Abbreviation BufferList := (list (list SimpleWaypointPtr)).

Section Localization.

Context {W : World}.


(** A reference to a buffer of one of the two buffer lists:
    [&current_buffer_list->at(i)]. *)
Record BufferRef := { in_list_a : bool; slot : nat }.

Record LocalizationToPlannerData := {
  planner_actor : option Actor;
  deviation : float;
  approaching_true_junction : bool
}.

Record LocalizationToCollisionData := {
  collision_actor : option Actor;
  buffer : option BufferRef
}.

Record LocalizationToTrafficLightData := {
  traffic_light_actor : option Actor;
  closest_waypoint : option SimpleWaypointPtr;
  junction_look_ahead_waypoint : option SimpleWaypointPtr
}.

Record LocalizationStage := {
  planner_frame_selector : bool;
  collision_frame_selector : bool;
  traffic_light_frame_selector : bool;
  buffer_list_a : BufferList;
  buffer_list_b : BufferList;
  planner_frame_a : list LocalizationToPlannerData;
  planner_frame_b : list LocalizationToPlannerData;
  collision_frame_a : list LocalizationToCollisionData;
  collision_frame_b : list LocalizationToCollisionData;
  traffic_light_frame_a : list LocalizationToTrafficLightData;
  traffic_light_frame_b : list LocalizationToTrafficLightData;
  planner_messenger_state : Z;
  collision_messenger_state : Z;
  traffic_light_messenger_state : Z;
  actor_list : list Actor;
  vehicle_id_to_index : list (ActorId * nat);
  traffic_distributor : TrafficDistributor
}.

(** The messengers are shared with the other stages. *)
Record Messengers := {
  planner_messenger : Messenger;
  collision_messenger : Messenger;
  traffic_light_messenger : Messenger
}.

(** *** Field updates *)

Definition with_buffer_lists (st : LocalizationStage) (a b : BufferList) : LocalizationStage :=
  {| planner_frame_selector := planner_frame_selector st;
     collision_frame_selector := collision_frame_selector st;
     traffic_light_frame_selector := traffic_light_frame_selector st;
     buffer_list_a := a;
     buffer_list_b := b;
     planner_frame_a := planner_frame_a st;
     planner_frame_b := planner_frame_b st;
     collision_frame_a := collision_frame_a st;
     collision_frame_b := collision_frame_b st;
     traffic_light_frame_a := traffic_light_frame_a st;
     traffic_light_frame_b := traffic_light_frame_b st;
     planner_messenger_state := planner_messenger_state st;
     collision_messenger_state := collision_messenger_state st;
     traffic_light_messenger_state := traffic_light_messenger_state st;
     actor_list := actor_list st;
     vehicle_id_to_index := vehicle_id_to_index st;
     traffic_distributor := traffic_distributor st |}.

Definition with_traffic_distributor (st : LocalizationStage) (td : TrafficDistributor) : LocalizationStage :=
  {| planner_frame_selector := planner_frame_selector st;
     collision_frame_selector := collision_frame_selector st;
     traffic_light_frame_selector := traffic_light_frame_selector st;
     buffer_list_a := buffer_list_a st;
     buffer_list_b := buffer_list_b st;
     planner_frame_a := planner_frame_a st;
     planner_frame_b := planner_frame_b st;
     collision_frame_a := collision_frame_a st;
     collision_frame_b := collision_frame_b st;
     traffic_light_frame_a := traffic_light_frame_a st;
     traffic_light_frame_b := traffic_light_frame_b st;
     planner_messenger_state := planner_messenger_state st;
     collision_messenger_state := collision_messenger_state st;
     traffic_light_messenger_state := traffic_light_messenger_state st;
     actor_list := actor_list st;
     vehicle_id_to_index := vehicle_id_to_index st;
     traffic_distributor := td |}.

Definition with_frames (st : LocalizationStage)
    (pa pb : list LocalizationToPlannerData)
    (ca cb : list LocalizationToCollisionData)
    (ta tb : list LocalizationToTrafficLightData) : LocalizationStage :=
  {| planner_frame_selector := planner_frame_selector st;
     collision_frame_selector := collision_frame_selector st;
     traffic_light_frame_selector := traffic_light_frame_selector st;
     buffer_list_a := buffer_list_a st;
     buffer_list_b := buffer_list_b st;
     planner_frame_a := pa;
     planner_frame_b := pb;
     collision_frame_a := ca;
     collision_frame_b := cb;
     traffic_light_frame_a := ta;
     traffic_light_frame_b := tb;
     planner_messenger_state := planner_messenger_state st;
     collision_messenger_state := collision_messenger_state st;
     traffic_light_messenger_state := traffic_light_messenger_state st;
     actor_list := actor_list st;
     vehicle_id_to_index := vehicle_id_to_index st;
     traffic_distributor := traffic_distributor st |}.

Definition with_channels (st : LocalizationStage)
    (ps cs ts : bool) (pm cm tm : Z) : LocalizationStage :=
  {| planner_frame_selector := ps;
     collision_frame_selector := cs;
     traffic_light_frame_selector := ts;
     buffer_list_a := buffer_list_a st;
     buffer_list_b := buffer_list_b st;
     planner_frame_a := planner_frame_a st;
     planner_frame_b := planner_frame_b st;
     collision_frame_a := collision_frame_a st;
     collision_frame_b := collision_frame_b st;
     traffic_light_frame_a := traffic_light_frame_a st;
     traffic_light_frame_b := traffic_light_frame_b st;
     planner_messenger_state := pm;
     collision_messenger_state := cm;
     traffic_light_messenger_state := tm;
     actor_list := actor_list st;
     vehicle_id_to_index := vehicle_id_to_index st;
     traffic_distributor := traffic_distributor st |}.

(** ** Action *)

(** [selector ? buffer_list_a : buffer_list_b] *)
Definition select_buffer_list (selector : bool) (st : LocalizationStage) : BufferList :=
  if selector then buffer_list_a st else buffer_list_b st.

(** The two lists of [Action]: [current_buffer_list] is chosen by
    [collision_frame_selector], [copy_buffer_list] by its negation. *)
Definition current_buffer_list (st : LocalizationStage) : BufferList :=
  select_buffer_list (collision_frame_selector st) st.
Definition copy_buffer_list (st : LocalizationStage) : BufferList :=
  select_buffer_list (negb (collision_frame_selector st)) st.

(** A write through the reference [waypoint_buffer], which points into
    [current_buffer_list]. *)
Definition store_waypoint_buffer (st : LocalizationStage) (i : nat) (b : Buffer) : LocalizationStage :=
  if collision_frame_selector st
  then with_buffer_lists st (<[i:=b]> (buffer_list_a st)) (buffer_list_b st)
  else with_buffer_lists st (buffer_list_a st) (<[i:=b]> (buffer_list_b st)).

Definition geo_ids (w : SimpleWaypointPtr) : GeoIds :=
  {| road_id := GetRoadId w; section_id := GetSectionId w; lane_id := GetLaneId w |}.

(** *** Synchronizing buffer copies *)

Definition ids_differ (c w : SimpleWaypointPtr) : bool :=
  negb (GetLaneId c =? GetLaneId w)%Z
  || negb (GetSectionId c =? GetSectionId w)%Z
  || negb (GetRoadId c =? GetRoadId w)%Z.

Definition synchronize (waypoint_buffer copy_waypoint_buffer : Buffer) : Buffer :=
  match waypoint_buffer, copy_waypoint_buffer with
  | w :: _, c :: _ =>
      if ids_differ c w
      then (* clear(); assign(copy.begin(), copy.end()) *) copy_waypoint_buffer
      else waypoint_buffer
  | _, _ => waypoint_buffer
  end.

(** *** Purging passed waypoints *)

(** The [while] loop; [dot_product] is the local variable of the source. *)
Fixpoint purge_loop (vehicle : Actor) (dot_product : float) (waypoint_buffer : Buffer) : Buffer :=
  match waypoint_buffer with
  | [] => []
  | _ :: popped =>
      if fle dot_product 0%Q then
        match popped with
        | [] => purge_loop vehicle dot_product popped
        | w :: _ =>
            purge_loop vehicle (DeviationDotProduct vehicle (WaypointLocation w)) popped
        end
      else waypoint_buffer
  end.

Definition purge (vehicle : Actor) (waypoint_buffer : Buffer) : Buffer :=
  match waypoint_buffer with
  | [] => []
  | w :: _ =>
      purge_loop vehicle (DeviationDotProduct vehicle (WaypointLocation w)) waypoint_buffer
  end.

(** *** Initializing the buffer if it is empty *)

Definition initialize (vehicle_location : Location) (waypoint_buffer : Buffer) : Buffer :=
  match waypoint_buffer with
  | [] => [GetWaypoint vehicle_location]
  | _ => waypoint_buffer
  end.

(** *** Assigning a lane change *)

Definition redirect (change_over_point : option SimpleWaypointPtr) (waypoint_buffer : Buffer) : Buffer :=
  match change_over_point with
  | Some p => (* clear(); push_back(p) *) [p]
  | None => waypoint_buffer
  end.

Definition assign_lane_change (vehicle : Actor) (waypoint_buffer : Buffer)
    (st : LocalizationStage) : outcome (Buffer * LocalizationStage) :=
  front_waypoint ← deque_front waypoint_buffer;
  let current_road_ids := geo_ids front_waypoint in
  let st := with_traffic_distributor st
              (UpdateVehicleRoadPosition (traffic_distributor st) (GetId vehicle)
                 current_road_ids) in
  if negb (CheckJunction front_waypoint) then
    let '(change_over_point, td) :=
      AssignLaneChange (traffic_distributor st) vehicle front_waypoint current_road_ids
        (current_buffer_list st) (vehicle_id_to_index st) (actor_list st) in
    mret (redirect change_over_point waypoint_buffer, with_traffic_distributor st td)
  else mret (waypoint_buffer, st).

(** *** Populating the buffer *)

Definition horizon_size (vehicle_velocity : float) : float :=
  std_max (round_float (WAYPOINT_TIME_HORIZON * vehicle_velocity)) MINIMUM_HORIZON_LENGTH.

(** The path selection of one round of the loop. *)
Definition select_index (next_waypoints : list SimpleWaypointPtr) (rs : RandState) : nat * RandState :=
  if 1 <? length next_waypoints
  then let '(r, rs') := rand rs in (r mod length next_waypoints, rs')
  else (0, rs).

Fixpoint populate (fuel : nat) (horizon : float) (waypoint_buffer : Buffer) (rs : RandState)
    : outcome (Buffer * RandState) :=
  match fuel with
  | 0 => OutOfFuel
  | S fuel' =>
      bk ← deque_back waypoint_buffer;
      fr ← deque_front waypoint_buffer;
      if fle (DistanceSquared bk fr) (pow2 horizon) then
        let next_waypoints := GetNextWaypoint bk in
        let '(selection_index, rs') := select_index next_waypoints rs in
        nxt ← vector_at next_waypoints selection_index;
        populate fuel' horizon (waypoint_buffer ++ [nxt]) rs'
      else mret (waypoint_buffer, rs)
  end.

(** *** Generating output *)

Definition target_point_distance (vehicle_velocity : float) : float :=
  std_max (std_ceil (vehicle_velocity * TARGET_WAYPOINT_TIME_HORIZON)%Q)
          TARGET_WAYPOINT_HORIZON_LENGTH.

(** The [for] loop that walks to the target; [bound] counts the rounds that
    are left at most. *)
Fixpoint target_loop (bound : nat) (waypoint_buffer : Buffer) (distance : float)
    (i : nat) (target_waypoint : SimpleWaypointPtr) : outcome SimpleWaypointPtr :=
  match bound with
  | 0 => OutOfFuel
  | S bound' =>
      if i <? length waypoint_buffer then
        fr ← deque_front waypoint_buffer;
        if flt (DistanceSquared fr target_waypoint) (pow2 distance) then
          t ← vector_at waypoint_buffer i;
          target_loop bound' waypoint_buffer distance (S i) t
        else mret target_waypoint
      else mret target_waypoint
  end.

Definition select_target (vehicle_velocity : float) (waypoint_buffer : Buffer)
    : outcome SimpleWaypointPtr :=
  fr ← deque_front waypoint_buffer;
  target_loop (S (length waypoint_buffer)) waypoint_buffer
    (target_point_distance vehicle_velocity) 0 fr.

Definition output_deviation (vehicle : Actor) (target_location : Location) : float :=
  let dot_product := DeviationDotProduct vehicle target_location in
  let cross_product := DeviationCrossProduct vehicle target_location in
  let dot_product := round_float (1 - dot_product) in
  if flt cross_product 0%Q then (dot_product * -1)%Q else dot_product.

(** *** Filtering out false junctions on highways *)

Definition look_ahead_distance (vehicle_velocity : float) : float :=
  std_max (2 * vehicle_velocity)%Q MINIMUM_JUNCTION_LOOK_AHEAD.

Fixpoint look_ahead_loop (bound : nat) (waypoint_buffer : Buffer) (distance : float)
    (i : nat) (look_ahead_point : SimpleWaypointPtr) (look_ahead_index : nat)
    : outcome (SimpleWaypointPtr * nat) :=
  match bound with
  | 0 => OutOfFuel
  | S bound' =>
      fr ← deque_front waypoint_buffer;
      if flt (DistanceSquared fr look_ahead_point) (pow2 distance)
         && (i <? length waypoint_buffer) then
        p ← vector_at waypoint_buffer i;
        look_ahead_loop bound' waypoint_buffer distance (S i) p i
      else mret (look_ahead_point, look_ahead_index)
  end.

Definition look_ahead (vehicle_velocity : float) (waypoint_buffer : Buffer)
    : outcome (SimpleWaypointPtr * nat) :=
  fr ← deque_front waypoint_buffer;
  look_ahead_loop (S (length waypoint_buffer)) waypoint_buffer
    (look_ahead_distance vehicle_velocity) 0 fr 0.

Fixpoint branch_loop (bound : nat) (waypoint_buffer : Buffer) (look_ahead_index : nat)
    (i : nat) (approaching_junction : bool) : outcome bool :=
  match bound with
  | 0 => OutOfFuel
  | S bound' =>
      if (i <? look_ahead_index) && negb approaching_junction then
        swp ← vector_at waypoint_buffer i;
        branch_loop bound' waypoint_buffer look_ahead_index (S i)
          (if 1 <? length (GetNextWaypoint swp) then true else approaching_junction)
      else mret approaching_junction
  end.

Definition junction_filter (speed_limit : float) (waypoint_buffer : Buffer)
    (look_ahead_point : SimpleWaypointPtr) (look_ahead_index : nat) : outcome bool :=
  if CheckJunction look_ahead_point then
    fr ← deque_front waypoint_buffer;
    if negb (CheckJunction fr) then
      if flt HIGHWAY_SPEED speed_limit then
        branch_loop (S look_ahead_index) waypoint_buffer look_ahead_index 0 false
      else mret true
    else mret false
  else mret false.

(** *** Editing output frames *)

Definition select_frame {A} (selector : bool) (a b : A) : A := if selector then a else b.

(** The three [at(i)] of the frames, each followed by the assignments to the
    fields of the entry; the last assignment reads
    [waypoint_buffer.at(look_ahead_index)]. *)
Definition edit_frames (st : LocalizationStage) (i : nat) (vehicle : Actor)
    (dot_product : float) (approaching_junction : bool)
    (waypoint_buffer : Buffer) (look_ahead_index : nat) : outcome LocalizationStage :=
  let current_planner_frame :=
    select_frame (planner_frame_selector st) (planner_frame_a st) (planner_frame_b st) in
  let current_collision_frame :=
    select_frame (collision_frame_selector st) (collision_frame_a st) (collision_frame_b st) in
  let current_traffic_light_frame :=
    select_frame (traffic_light_frame_selector st)
      (traffic_light_frame_a st) (traffic_light_frame_b st) in
  _ ← vector_at current_planner_frame i;
  let current_planner_frame :=
    <[i := {| planner_actor := Some vehicle;
              deviation := dot_product;
              approaching_true_junction := approaching_junction |}]> current_planner_frame in
  _ ← vector_at current_collision_frame i;
  let current_collision_frame :=
    <[i := {| collision_actor := Some vehicle;
              buffer := Some {| in_list_a := collision_frame_selector st; slot := i |} |}]>
      current_collision_frame in
  _ ← vector_at current_traffic_light_frame i;
  fr ← deque_front waypoint_buffer;
  la ← vector_at waypoint_buffer look_ahead_index;
  let current_traffic_light_frame :=
    <[i := {| traffic_light_actor := Some vehicle;
              closest_waypoint := Some fr;
              junction_look_ahead_waypoint := Some la |}]> current_traffic_light_frame in
  mret (with_frames st
          (select_frame (planner_frame_selector st) current_planner_frame (planner_frame_a st))
          (select_frame (planner_frame_selector st) (planner_frame_b st) current_planner_frame)
          (select_frame (collision_frame_selector st) current_collision_frame (collision_frame_a st))
          (select_frame (collision_frame_selector st) (collision_frame_b st) current_collision_frame)
          (select_frame (traffic_light_frame_selector st)
             current_traffic_light_frame (traffic_light_frame_a st))
          (select_frame (traffic_light_frame_selector st)
             (traffic_light_frame_b st) current_traffic_light_frame)).

(** *** One round of the loop over the vehicles *)

Definition Action_vehicle (fuel : nat) (i : nat) (st : LocalizationStage) (rs : RandState)
    : outcome (LocalizationStage * RandState) :=
  vehicle ← vector_at (actor_list st) i;
  let vehicle_location := GetLocation vehicle in
  let vehicle_velocity := GetVelocityLength vehicle in
  let horizon := horizon_size vehicle_velocity in
  waypoint_buffer ← vector_at (current_buffer_list st) i;
  copy_waypoint_buffer ← vector_at (copy_buffer_list st) i;
  (* Synchronizing buffer copies in case the path of the vehicle has changed. *)
  let waypoint_buffer := synchronize waypoint_buffer copy_waypoint_buffer in
  (* Purge passed waypoints. *)
  let waypoint_buffer := purge vehicle waypoint_buffer in
  (* Initializing buffer if it is empty. *)
  let waypoint_buffer := initialize vehicle_location waypoint_buffer in
  let st := store_waypoint_buffer st i waypoint_buffer in
  (* Assign a lane change. *)
  '(waypoint_buffer, st) ← assign_lane_change vehicle waypoint_buffer st;
  (* Populating the buffer. *)
  '(waypoint_buffer, rs) ← populate fuel horizon waypoint_buffer rs;
  let st := store_waypoint_buffer st i waypoint_buffer in
  (* Generating output. *)
  target_waypoint ← select_target vehicle_velocity waypoint_buffer;
  let dot_product := output_deviation vehicle (WaypointLocation target_waypoint) in
  (* Filtering out false junctions on highways. *)
  let speed_limit := GetSpeedLimit vehicle in
  '(look_ahead_point, look_ahead_index) ← look_ahead vehicle_velocity waypoint_buffer;
  approaching_junction ←
    junction_filter speed_limit waypoint_buffer look_ahead_point look_ahead_index;
  (* Editing output frames. *)
  st ← edit_frames st i vehicle dot_product approaching_junction
         waypoint_buffer look_ahead_index;
  mret (st, rs).

(** The loop [for (uint i = start_index; i <= end_index; ++i)]; [rounds] is
    the number of rounds left. *)
Fixpoint Action_loop (fuel : nat) (rounds : nat) (i : nat) (st : LocalizationStage) (rs : RandState)
    : outcome (LocalizationStage * RandState) :=
  match rounds with
  | 0 => mret (st, rs)
  | S rounds' =>
      '(st, rs) ← Action_vehicle fuel i st rs;
      Action_loop fuel rounds' (S i) st rs
  end.

Definition Action (fuel : nat) (start_index end_index : nat) (st : LocalizationStage) (rs : RandState)
    : outcome (LocalizationStage * RandState) :=
  Action_loop fuel (S end_index - start_index) start_index st rs.

(** ** DataSender *)

Definition selected_frame (selector : bool) : FrameId :=
  if selector then frame_a else frame_b.

Definition DataSender (st : LocalizationStage) (ms : Messengers) : LocalizationStage * Messengers :=
  (* planner: always sent *)
  let planner_data_packet :=
    {| id := planner_messenger_state st;
       data := selected_frame (planner_frame_selector st) |} in
  let ps := negb (planner_frame_selector st) in
  let '(pstate, pm) := SendData (planner_messenger ms) planner_data_packet in
  (* collision *)
  let collision_messenger_current_state := GetState (collision_messenger ms) in
  let '(cs, cstate, cm) :=
    if negb (collision_messenger_current_state =? collision_messenger_state st)%Z then
      let collision_data_packet :=
        {| id := collision_messenger_state st;
           data := selected_frame (collision_frame_selector st) |} in
      let '(cstate, cm) := SendData (collision_messenger ms) collision_data_packet in
      (negb (collision_frame_selector st), cstate, cm)
    else (collision_frame_selector st, collision_messenger_state st, collision_messenger ms) in
  (* traffic light *)
  let traffic_light_messenger_current_state := GetState (traffic_light_messenger ms) in
  let '(ts, tstate, tm) :=
    if negb (traffic_light_messenger_current_state =? traffic_light_messenger_state st)%Z then
      let traffic_light_data_packet :=
        {| id := traffic_light_messenger_state st;
           data := selected_frame (traffic_light_frame_selector st) |} in
      let '(tstate, tm) := SendData (traffic_light_messenger ms) traffic_light_data_packet in
      (negb (traffic_light_frame_selector st), tstate, tm)
    else (traffic_light_frame_selector st, traffic_light_messenger_state st,
          traffic_light_messenger ms) in
  (with_channels st ps cs ts pstate cstate tstate,
   {| planner_messenger := pm; collision_messenger := cm; traffic_light_messenger := tm |}).

(** ** The constructor *)

(** [int] arithmetic: [z - 1] overflows below the least 32 bit integer, and
    a signed overflow has no defined behaviour. *)
Definition INT_MIN : Z := (- 2 ^ 31)%Z.
Definition INT_MAX : Z := (2 ^ 31 - 1)%Z.

Definition int_minus_one (z : Z) : outcome Z :=
  if (INT_MIN <? z)%Z && (z <=? INT_MAX)%Z then Returns (z - 1)%Z else Undefined.

(** [std::unordered_map<ActorId, uint>], as the list of its pairs: [find]
    returns the value of a key, [insert] adds a pair only when the key is
    not present. *)
Fixpoint map_find (key : ActorId) (m : list (ActorId * nat)) : option nat :=
  match m with
  | [] => None
  | (k, v) :: rest => if key =? k then Some v else map_find key rest
  end.

Definition map_insert (key : ActorId) (value : nat) (m : list (ActorId * nat))
    : list (ActorId * nat) :=
  match map_find key m with
  | Some _ => m
  | None => (key, value) :: m
  end.

(** Connecting vehicle ids to their position indices on data arrays. *)
Fixpoint connect_indices (actors : list Actor) (index : nat) (m : list (ActorId * nat))
    : list (ActorId * nat) :=
  match actors with
  | [] => m
  | actor :: rest => connect_indices rest (S index) (map_insert (GetId actor) index m)
  end.

(** The entries of a frame allocated with [std::make_shared<Frame>(n)]. *)
Definition empty_planner_data : LocalizationToPlannerData :=
  {| planner_actor := None; deviation := 0%Q; approaching_true_junction := false |}.
Definition empty_collision_data : LocalizationToCollisionData :=
  {| collision_actor := None; buffer := None |}.
Definition empty_traffic_light_data : LocalizationToTrafficLightData :=
  {| traffic_light_actor := None; closest_waypoint := None;
     junction_look_ahead_waypoint := None |}.

(** The constructor.  [distributor] is the default-constructed member
    [traffic_distributor]; [pool_size] goes to the base class only. *)
Definition LocalizationStage_constructor (ms : Messengers)
    (number_of_vehicles pool_size : nat) (actors : list Actor)
    (distributor : TrafficDistributor) : outcome LocalizationStage :=
  (* Initializing messenger states to initiate data writes
     preemptively since this is the first stage in the pipeline. *)
  pstate ← int_minus_one (GetState (planner_messenger ms));
  cstate ← int_minus_one (GetState (collision_messenger ms));
  tstate ← int_minus_one (GetState (traffic_light_messenger ms));
  mret {| planner_frame_selector := true;
          collision_frame_selector := true;
          traffic_light_frame_selector := true;
          buffer_list_a := replicate number_of_vehicles [];
          buffer_list_b := replicate number_of_vehicles [];
          planner_frame_a := replicate number_of_vehicles empty_planner_data;
          planner_frame_b := replicate number_of_vehicles empty_planner_data;
          collision_frame_a := replicate number_of_vehicles empty_collision_data;
          collision_frame_b := replicate number_of_vehicles empty_collision_data;
          traffic_light_frame_a := replicate number_of_vehicles empty_traffic_light_data;
          traffic_light_frame_b := replicate number_of_vehicles empty_traffic_light_data;
          planner_messenger_state := pstate;
          collision_messenger_state := cstate;
          traffic_light_messenger_state := tstate;
          actor_list := actors;
          vehicle_id_to_index := connect_indices actors 0 [];
          traffic_distributor := distributor |}.

(** ** DrawBuffer *)

(** A call [debug_helper.DrawPoint(location, size, color, life_time)]. *)
Record DrawPoint := {
  draw_location : Location;
  draw_size : float;
  draw_color : nat * nat * nat;
  draw_life_time : float
}.

(** The loop of [DrawBuffer]; [drawn] collects the calls to [DrawPoint]. *)
Fixpoint DrawBuffer_loop (bound : nat) (waypoint_buffer : Buffer) (i : nat)
    (drawn : list DrawPoint) : outcome (list DrawPoint) :=
  match bound with
  | 0 => OutOfFuel
  | S bound' =>
      if (i <? length waypoint_buffer) && (i <? 5) then
        w ← vector_at waypoint_buffer i;
        DrawBuffer_loop bound' waypoint_buffer (S i)
          (drawn ++ [{| draw_location := WaypointLocation w;
                        draw_size := round_float (1 # 10);
                        draw_color := (255, 0, 0);
                        draw_life_time := (1 # 2)%Q |}])
      else mret drawn
  end.

Definition DrawBuffer (waypoint_buffer : Buffer) (drawn : list DrawPoint)
    : outcome (list DrawPoint) :=
  DrawBuffer_loop 6 waypoint_buffer 0 drawn.

(** ** Vocabulary of the properties *)

(** The fronts of both copies exist and their (road, section, lane) triples
    are not the same. *)
Definition fronts_differ (waypoint_buffer copy_waypoint_buffer : Buffer) : Prop :=
  exists w c, head waypoint_buffer = Some w /\ head copy_waypoint_buffer = Some c /\
    (GetRoadId c, GetSectionId c, GetLaneId c) <> (GetRoadId w, GetSectionId w, GetLaneId w).

(** The raw cosine between the heading of the vehicle and the direction to a
    waypoint. *)
Definition signed_deviation (vehicle : Actor) (w : SimpleWaypointPtr) : float :=
  DeviationDotProduct vehicle (WaypointLocation w).

(** A waypoint has more than one successor. *)
Definition branches (w : SimpleWaypointPtr) : bool := 1 <? length (GetNextWaypoint w).

(** The point that [DrawBuffer] draws for a waypoint. *)
Definition red_point (w : SimpleWaypointPtr) : DrawPoint :=
  {| draw_location := WaypointLocation w;
     draw_size := round_float (1 # 10);
     draw_color := (255, 0, 0);
     draw_life_time := (1 # 2)%Q |}.

(** The frames that [Action] writes, and the frames it leaves alone. *)
Definition current_planner_frame (st : LocalizationStage) : list LocalizationToPlannerData :=
  select_frame (planner_frame_selector st) (planner_frame_a st) (planner_frame_b st).
Definition current_collision_frame (st : LocalizationStage) : list LocalizationToCollisionData :=
  select_frame (collision_frame_selector st) (collision_frame_a st) (collision_frame_b st).
Definition current_traffic_light_frame (st : LocalizationStage)
    : list LocalizationToTrafficLightData :=
  select_frame (traffic_light_frame_selector st)
    (traffic_light_frame_a st) (traffic_light_frame_b st).
Definition other_planner_frame (st : LocalizationStage) : list LocalizationToPlannerData :=
  select_frame (planner_frame_selector st) (planner_frame_b st) (planner_frame_a st).
Definition other_collision_frame (st : LocalizationStage) : list LocalizationToCollisionData :=
  select_frame (collision_frame_selector st) (collision_frame_b st) (collision_frame_a st).
Definition other_traffic_light_frame (st : LocalizationStage)
    : list LocalizationToTrafficLightData :=
  select_frame (traffic_light_frame_selector st)
    (traffic_light_frame_b st) (traffic_light_frame_a st).

(** The frame of a pair that a packet names. *)
Definition frame_of {A} (f : FrameId) (a b : A) : A :=
  match f with frame_a => a | frame_b => b end.

(** [st'] is [st] but for the traffic distributor and for the entries of
    the current buffer list and of the current frames at the indices in
    [touched]. *)
Record untouched_outside (touched : nat -> Prop) (st st' : LocalizationStage) : Prop := {
  same_planner_selector : planner_frame_selector st' = planner_frame_selector st;
  same_collision_selector : collision_frame_selector st' = collision_frame_selector st;
  same_traffic_light_selector :
    traffic_light_frame_selector st' = traffic_light_frame_selector st;
  same_planner_state : planner_messenger_state st' = planner_messenger_state st;
  same_collision_state : collision_messenger_state st' = collision_messenger_state st;
  same_traffic_light_state :
    traffic_light_messenger_state st' = traffic_light_messenger_state st;
  same_actor_list : actor_list st' = actor_list st;
  same_index : vehicle_id_to_index st' = vehicle_id_to_index st;
  same_copy_buffer_list : copy_buffer_list st' = copy_buffer_list st;
  same_other_planner_frame : other_planner_frame st' = other_planner_frame st;
  same_other_collision_frame : other_collision_frame st' = other_collision_frame st;
  same_other_traffic_light_frame :
    other_traffic_light_frame st' = other_traffic_light_frame st;
  same_buffer_count : length (current_buffer_list st') = length (current_buffer_list st);
  same_planner_size : length (current_planner_frame st') = length (current_planner_frame st);
  same_collision_size :
    length (current_collision_frame st') = length (current_collision_frame st);
  same_traffic_light_size :
    length (current_traffic_light_frame st') = length (current_traffic_light_frame st);
  same_buffer_outside : forall j, ~ touched j ->
    current_buffer_list st' !! j = current_buffer_list st !! j;
  same_planner_outside : forall j, ~ touched j ->
    current_planner_frame st' !! j = current_planner_frame st !! j;
  same_collision_outside : forall j, ~ touched j ->
    current_collision_frame st' !! j = current_collision_frame st !! j;
  same_traffic_light_outside : forall j, ~ touched j ->
    current_traffic_light_frame st' !! j = current_traffic_light_frame st !! j
}.

(** What [Action] has written for the vehicle at index [i]: the buffer of
    the vehicle and its three entries of the current frames. *)
Definition emitted (i : nat) (st : LocalizationStage) : Prop :=
  exists vehicle waypoint_buffer fr bk target look_ahead_point,
    actor_list st !! i = Some vehicle /\
    current_buffer_list st !! i = Some waypoint_buffer /\
    head waypoint_buffer = Some fr /\ last waypoint_buffer = Some bk /\
    (pow2 (horizon_size (GetVelocityLength vehicle)) < DistanceSquared bk fr)%Q /\
    target ∈ waypoint_buffer /\ look_ahead_point ∈ waypoint_buffer /\
    (exists planner_message,
       current_planner_frame st !! i = Some planner_message /\
       planner_actor planner_message = Some vehicle /\
       deviation planner_message = output_deviation vehicle (WaypointLocation target)) /\
    current_collision_frame st !! i =
      Some {| collision_actor := Some vehicle;
              buffer := Some {| in_list_a := collision_frame_selector st; slot := i |} |} /\
    current_traffic_light_frame st !! i =
      Some {| traffic_light_actor := Some vehicle;
              closest_waypoint := Some fr;
              junction_look_ahead_waypoint := Some look_ahead_point |}.

(** The index [i] is within the containers that [Action] reads and writes
    for a vehicle. *)
Definition in_bounds (i : nat) (st : LocalizationStage) : Prop :=
  i < length (actor_list st) /\
  i < length (current_buffer_list st) /\ i < length (copy_buffer_list st) /\
  i < length (current_planner_frame st) /\
  i < length (current_collision_frame st) /\
  i < length (current_traffic_light_frame st).

End Localization.

(** ** A small world to run the stage in

    Four waypoints on a straight road, 25 units apart; cars drive along the
    road in the direction of growing positions.  The successor relation, the
    junction flags and the answer of the traffic distributor are parameters,
    so that the same road serves with and without a dead end, a loop or a
    lane change. *)

Module Toy.

Inductive waypoint := wp0 | wp1 | wp2 | wp3.

Definition position (w : waypoint) : Z :=
  match w with wp0 => 0 | wp1 => 25 | wp2 => 50 | wp3 => 75 end.

Definition distance_squared (a b : waypoint) : float :=
  inject_Z ((position a - position b) * (position a - position b)).

Definition nearest (l : Location) : waypoint :=
  let x := fst (fst l) in
  if Qle_bool x (25 # 2) then wp0
  else if Qle_bool x (75 # 2) then wp1
  else if Qle_bool x (125 # 2) then wp2
  else wp3.

Record car := {
  car_id : ActorId;
  car_position : Q;
  car_velocity : float;
  car_speed_limit : float
}.

(** The cosine between the heading of the car and the direction to a point
    of the road: 1 ahead of the car, -1 behind it, 0 beside it. *)
Definition cosine (c : car) (l : Location) : float :=
  let x := fst (fst l) in
  if flt (car_position c) x then 1%Q
  else if flt x (car_position c) then (-1)%Q
  else 0%Q.

Definition world (next : waypoint -> list waypoint) (junction : waypoint -> bool)
    (change : option waypoint) : World :=
  {| Actor := car;
     GetId := car_id;
     GetLocation := fun c => (car_position c, 0%Q, 0%Q);
     GetVelocityLength := car_velocity;
     GetSpeedLimit := car_speed_limit;
     SimpleWaypointPtr := waypoint;
     WaypointLocation := fun w => (inject_Z (position w), 0%Q, 0%Q);
     GetRoadId := fun _ => 1%Z;
     GetSectionId := fun _ => 0%Z;
     GetLaneId := fun w => match w with wp3 => 2%Z | _ => 1%Z end;
     CheckJunction := junction;
     GetNextWaypoint := next;
     DistanceSquared := distance_squared;
     GetWaypoint := nearest;
     DeviationDotProduct := cosine;
     DeviationCrossProduct := fun _ _ => 0%Q;
     TrafficDistributor := list (ActorId * GeoIds);
     UpdateVehicleRoadPosition := fun td a g => (a, g) :: td;
     AssignLaneChange := fun td _ _ _ _ _ _ => (change, td);
     RandState := nat;
     rand := fun n => (n, S n);
     Messenger := Z * list DataPacket;
     GetState := fst;
     SendData := fun m p => ((fst m + 1)%Z, ((fst m + 1)%Z, p :: snd m)) |}.

Definition straight (w : waypoint) : list waypoint :=
  match w with wp0 => [wp1] | wp1 => [wp2] | wp2 => [wp3] | wp3 => [wp3] end.

Definition forked (w : waypoint) : list waypoint :=
  match w with wp0 => [wp1; wp2] | wp1 => [wp2] | wp2 => [wp3] | wp3 => [wp3] end.

Definition dead_end (w : waypoint) : list waypoint :=
  match w with wp0 => [wp1] | _ => [] end.

Definition circling (w : waypoint) : list waypoint :=
  match w with wp0 => [wp1] | wp1 => [wp0] | wp2 => [wp3] | wp3 => [wp2] end.

Definition junction_at_wp1 (w : waypoint) : bool :=
  match w with wp1 => true | _ => false end.

Definition road : World := world straight junction_at_wp1 None.
Definition road_with_fork : World := world forked junction_at_wp1 None.
Definition road_with_dead_end : World := world dead_end junction_at_wp1 None.
Definition roundabout : World := world circling junction_at_wp1 None.
Definition road_with_lane_change : World := world straight junction_at_wp1 (Some wp1).

Definition parked : car :=
  {| car_id := 7; car_position := 0%Q; car_velocity := 0%Q; car_speed_limit := 30%Q |}.

Definition parked_at (x : Q) (limit : float) : car :=
  {| car_id := 7; car_position := x; car_velocity := 0%Q; car_speed_limit := limit |}.

(** A stage for one vehicle, all selectors on the first frame of each pair. *)
Definition stage {W : World} (vehicle : Actor) (a b : Buffer) (td : TrafficDistributor)
    : LocalizationStage :=
  {| planner_frame_selector := true;
     collision_frame_selector := true;
     traffic_light_frame_selector := true;
     buffer_list_a := [a];
     buffer_list_b := [b];
     planner_frame_a :=
       [{| planner_actor := None; deviation := 0%Q; approaching_true_junction := false |}];
     planner_frame_b :=
       [{| planner_actor := None; deviation := 0%Q; approaching_true_junction := false |}];
     collision_frame_a := [{| collision_actor := None; buffer := None |}];
     collision_frame_b := [{| collision_actor := None; buffer := None |}];
     traffic_light_frame_a :=
       [{| traffic_light_actor := None; closest_waypoint := None;
           junction_look_ahead_waypoint := None |}];
     traffic_light_frame_b :=
       [{| traffic_light_actor := None; closest_waypoint := None;
           junction_look_ahead_waypoint := None |}];
     planner_messenger_state := (-1)%Z;
     collision_messenger_state := (-1)%Z;
     traffic_light_messenger_state := (-1)%Z;
     actor_list := [vehicle];
     vehicle_id_to_index := [(GetId vehicle, 0)];
     traffic_distributor := td |}.

(** The car parked at the start of the straight road, before and after
    one call of [Action] on it. *)
Definition road_stage : @LocalizationStage road := stage (W:=road) parked [] [] [].

Definition road_stage_after : @LocalizationStage road :=
  Eval vm_compute in
    match @Action road 10 0 0 road_stage 0 with
    | Returns (st, _) => st
    | _ => road_stage
    end.

(** Messengers whose state is a counter of the packets they have received;
    the collision stage has taken the last packet, the traffic light stage
    has not. *)
Definition messenger_in_state (n : Z) : @Messenger road := (n, @nil DataPacket).

Definition messengers : @Messengers road :=
  {| planner_messenger := messenger_in_state 0;
     collision_messenger := messenger_in_state 0;
     traffic_light_messenger := messenger_in_state (-1) |}.

(** Along the straight road the distance to the end decreases. *)
Definition rank (w : waypoint) : nat :=
  match w with wp0 => 3 | wp1 => 2 | wp2 => 1 | wp3 => 0 end.

(** Messengers that have received nothing yet, as the constructor finds
    them. *)
Definition fresh_messengers : @Messengers road :=
  {| planner_messenger := messenger_in_state 0;
     collision_messenger := messenger_in_state 0;
     traffic_light_messenger := messenger_in_state 0 |}.

(** The stage of the parked car after [Action], [DataSender] and a second
    [Action]. *)
Definition road_stage_sent : @LocalizationStage road :=
  Eval vm_compute in fst (@DataSender road road_stage_after messengers).

Definition road_stage_next : @LocalizationStage road :=
  Eval vm_compute in
    match @Action road 10 0 0 road_stage_sent 0 with
    | Returns (st, _) => st
    | _ => road_stage_sent
    end.

End Toy.

(** * Properties *)

Section Properties.

Context {W : World}.

(** ** Comparisons *)

Lemma fle_true (a b : float) : fle a b = true <-> (a <= b)%Q.
Proof. apply Qle_bool_iff. Qed.

Lemma flt_true (a b : float) : flt a b = true <-> (a < b)%Q.
Proof.
  unfold flt. rewrite negb_true_iff, <- not_true_iff_false, Qle_bool_iff.
  split; [apply Qnot_le_lt | apply Qlt_not_le].
Qed.

Lemma fle_false (a b : float) : fle a b = false <-> (b < a)%Q.
Proof.
  rewrite <- flt_true. unfold flt. now rewrite negb_true_iff.
Qed.

Lemma flt_false (a b : float) : flt a b = false <-> (b <= a)%Q.
Proof.
  rewrite <- fle_true. unfold flt, fle. now rewrite negb_false_iff.
Qed.

(** ** Outcomes *)

Lemma bind_Returns {A B} (m : outcome A) (f : A -> outcome B) (b : B) :
  m ≫= f = Returns b -> exists a, m = Returns a /\ f a = Returns b.
Proof. destruct m; simpl; try discriminate. eauto. Qed.

(** [bind_inv H as x Hx] splits a finished [m ≫= f] in [H] into the value
    [x] that [m] returned, with [Hx], and leaves the run of [f x] in [H]. *)
Tactic Notation "bind_inv" hyp(H) "as" simple_intropattern(x) ident(Hx) :=
  apply bind_Returns in H; destruct H as (x & Hx & H).

Lemma Returns_bind {A B} (a : A) (f : A -> outcome B) : Returns a ≫= f = f a.
Proof. reflexivity. Qed.

Lemma vector_at_Returns {A} (v : list A) (i : nat) (x : A) :
  vector_at v i = Returns x <-> v !! i = Some x.
Proof.
  unfold vector_at. destruct (v !! i); split; intros H; inversion H; reflexivity.
Qed.

Lemma vector_at_lt {A} (v : list A) (i : nat) :
  i < length v -> exists x, vector_at v i = Returns x /\ v !! i = Some x.
Proof.
  intros H. destruct (lookup_lt_is_Some_2 v i H) as [x Hx].
  exists x. split; [now apply vector_at_Returns | assumption].
Qed.

Lemma deque_front_Returns {A} (d : list A) (x : A) :
  deque_front d = Returns x <-> head d = Some x.
Proof. destruct d; simpl; split; intros H; inversion H; reflexivity. Qed.

Lemma deque_back_Returns {A} (d : list A) (x : A) :
  deque_back d = Returns x <-> last d = Some x.
Proof.
  unfold deque_back. destruct (last d); split; intros H; inversion H; reflexivity.
Qed.

(** ** Synchronizing *)

Lemma ids_differ_true (c w : SimpleWaypointPtr) :
  ids_differ c w = true <->
  (GetRoadId c, GetSectionId c, GetLaneId c) <> (GetRoadId w, GetSectionId w, GetLaneId w).
Proof.
  unfold ids_differ.
  rewrite !orb_true_iff, !negb_true_iff, !Z.eqb_neq. split.
  - intros H E. inversion E. tauto.
  - intros H.
    destruct (Z.eq_dec (GetLaneId c) (GetLaneId w)) as [El|]; [|tauto].
    destruct (Z.eq_dec (GetSectionId c) (GetSectionId w)) as [Es|]; [|tauto].
    destruct (Z.eq_dec (GetRoadId c) (GetRoadId w)) as [Er|]; [|tauto].
    exfalso. apply H. now rewrite El, Es, Er.
Qed.

(** C5. Synchronizing replaces the contents of the active buffer by those of
    the exposed buffer exactly when both are non-empty and the (road, section,
    lane) triples of their front waypoints differ; in every other case (one
    of them empty, or equal triples) the active buffer stays as it is. *)
Theorem synchronize_exactly_when_fronts_differ (waypoint_buffer copy_waypoint_buffer : Buffer) :
  (fronts_differ waypoint_buffer copy_waypoint_buffer ->
     synchronize waypoint_buffer copy_waypoint_buffer = copy_waypoint_buffer) /\
  (~ fronts_differ waypoint_buffer copy_waypoint_buffer ->
     synchronize waypoint_buffer copy_waypoint_buffer = waypoint_buffer) /\
  (waypoint_buffer = [] \/ copy_waypoint_buffer = [] ->
     synchronize waypoint_buffer copy_waypoint_buffer = waypoint_buffer).
Proof.
  unfold fronts_differ, synchronize.
  destruct waypoint_buffer as [|w wb], copy_waypoint_buffer as [|c cb]; simpl.
  - split; [reflexivity | split; reflexivity].
  - split; [|split; reflexivity].
    intros (w' & c' & Hw & _). discriminate Hw.
  - split; [|split; reflexivity].
    intros (w' & c' & _ & Hc & _). discriminate Hc.
  - destruct (ids_differ c w) eqn:E.
    + split; [reflexivity|]. split.
      * intros H. exfalso. apply H. exists w, c.
        split; [reflexivity|]. split; [reflexivity|]. now apply ids_differ_true.
      * intros [H|H]; discriminate H.
    + split.
      * intros (w' & c' & Hw & Hc & Hne). inversion Hw; inversion Hc; subst.
        apply ids_differ_true in Hne. congruence.
      * split; [reflexivity|]. intros [H|H]; discriminate H.
Qed.

(** ** Purging *)

Lemma purge_cons (vehicle : Actor) (w : SimpleWaypointPtr) (rest : Buffer) :
  purge vehicle (w :: rest) =
  if fle (signed_deviation vehicle w) 0%Q then purge vehicle rest else w :: rest.
Proof.
  unfold purge, signed_deviation. simpl.
  destruct (fle _ _); [|reflexivity].
  destruct rest; reflexivity.
Qed.

(** C3. Purging pops exactly the longest prefix of entries whose signed
    deviation is at most 0: the buffer splits into the popped entries, all of
    deviation at most 0, followed by what is kept, and what is kept is empty
    or starts with an entry of deviation above 0. *)
Theorem purge_pops_maximal_prefix (vehicle : Actor) (waypoint_buffer : Buffer) :
  exists popped,
    waypoint_buffer = popped ++ purge vehicle waypoint_buffer /\
    Forall (fun w => (signed_deviation vehicle w <= 0)%Q) popped /\
    match purge vehicle waypoint_buffer with
    | [] => True
    | w :: _ => (0 < signed_deviation vehicle w)%Q
    end.
Proof.
  induction waypoint_buffer as [|w rest IH].
  - exists []. simpl. auto.
  - rewrite purge_cons. destruct (fle _ _) eqn:E.
    + destruct IH as (popped & Hsplit & Hall & Hfront).
      exists (w :: popped). split; [|split].
      * simpl. now rewrite <- Hsplit.
      * constructor; [now apply fle_true | assumption].
      * assumption.
    + exists []. split; [reflexivity|]. split; [constructor|].
      now apply fle_false.
Qed.

(** ** Populating *)

Lemma select_index_lt (next_waypoints : list SimpleWaypointPtr) (rs : RandState) :
  next_waypoints <> [] -> fst (select_index next_waypoints rs) < length next_waypoints.
Proof.
  intros Hne. unfold select_index.
  destruct (1 <? length next_waypoints) eqn:E.
  - destruct (rand rs) as [r rs']. simpl.
    apply Nat.mod_upper_bound. destruct next_waypoints; [congruence | discriminate].
  - simpl. destruct next_waypoints; [congruence | simpl; lia].
Qed.

Lemma populate_within (fuel : nat) (horizon : float) (waypoint_buffer : Buffer)
    (rs : RandState) (bk fr : SimpleWaypointPtr) :
  last waypoint_buffer = Some bk -> head waypoint_buffer = Some fr ->
  (DistanceSquared bk fr <= pow2 horizon)%Q ->
  populate (S fuel) horizon waypoint_buffer rs =
    (let '(selection_index, rs') := select_index (GetNextWaypoint bk) rs in
     nxt ← vector_at (GetNextWaypoint bk) selection_index;
     populate fuel horizon (waypoint_buffer ++ [nxt]) rs').
Proof.
  intros Hbk Hfr Hle. simpl.
  apply deque_back_Returns in Hbk. apply deque_front_Returns in Hfr.
  rewrite Hbk, Hfr. simpl. apply fle_true in Hle. now rewrite Hle.
Qed.

Lemma populate_beyond (fuel : nat) (horizon : float) (waypoint_buffer : Buffer)
    (rs : RandState) (bk fr : SimpleWaypointPtr) :
  last waypoint_buffer = Some bk -> head waypoint_buffer = Some fr ->
  (pow2 horizon < DistanceSquared bk fr)%Q ->
  populate (S fuel) horizon waypoint_buffer rs = Returns (waypoint_buffer, rs).
Proof.
  intros Hbk Hfr Hlt. simpl.
  apply deque_back_Returns in Hbk. apply deque_front_Returns in Hfr.
  rewrite Hbk, Hfr. simpl. apply fle_false in Hlt. now rewrite Hlt.
Qed.

Lemma head_snoc (b : Buffer) (fr x : SimpleWaypointPtr) :
  head b = Some fr -> head (b ++ [x]) = Some fr.
Proof. destruct b; simpl; congruence. Qed.

(** What a finished run of the loop has done: every waypoint it appended
    was a successor of the back of the moment, appended while that back was
    within the horizon, and the loop stopped at a back beyond the horizon. *)
Lemma populate_Returns (fuel : nat) (horizon : float) :
  forall (waypoint_buffer : Buffer) (rs : RandState) (fr : SimpleWaypointPtr)
         (grown : Buffer) (rs' : RandState),
  head waypoint_buffer = Some fr ->
  populate fuel horizon waypoint_buffer rs = Returns (grown, rs') ->
  head grown = Some fr /\
  (exists bk, last grown = Some bk /\ (pow2 horizon < DistanceSquared bk fr)%Q) /\
  exists appended, grown = waypoint_buffer ++ appended /\
    forall k nxt, appended !! k = Some nxt ->
      exists bk, last (waypoint_buffer ++ take k appended) = Some bk /\
        (DistanceSquared bk fr <= pow2 horizon)%Q /\ nxt ∈ GetNextWaypoint bk.
Proof.
  induction fuel as [|fuel IH]; intros b rs fr grown rs' Hfr Hrun; [discriminate|].
  simpl in Hrun.
  bind_inv Hrun as bk Hbk.
  bind_inv Hrun as fr' Hfr'.
  apply deque_front_Returns in Hfr'. rewrite Hfr in Hfr'. inversion Hfr'; subst fr'.
  apply deque_back_Returns in Hbk.
  destruct (fle (DistanceSquared bk fr) (pow2 horizon)) eqn:E.
  - destruct (select_index (GetNextWaypoint bk) rs) as [idx rs1].
    bind_inv Hrun as nxt Hnxt.
    apply vector_at_Returns in Hnxt.
    destruct (IH _ _ fr _ _ (head_snoc _ _ _ Hfr) Hrun) as (Hhead & Hstop & ext & Hext & Hsteps).
    split; [assumption|]. split; [assumption|].
    exists (nxt :: ext). split; [now rewrite Hext, <- app_assoc|].
    intros [|k] x Hx; simpl in Hx.
    + inversion Hx; subst x. exists bk. rewrite take_0, app_nil_r.
      split; [assumption|]. split; [now apply fle_true|].
      eapply list_elem_of_lookup_2; eassumption.
    + destruct (Hsteps k x Hx) as (bk' & Hbk' & Hle & Hin).
      exists bk'. simpl. rewrite <- app_assoc in Hbk'. auto.
  - inversion Hrun; subst. split; [assumption|]. split.
    + exists bk. split; [assumption | now apply fle_false].
    + exists []. split; [now rewrite app_nil_r|]. intros k x Hx. discriminate Hx.
Qed.

Lemma populate_nonempty (fuel : nat) (horizon : float) (waypoint_buffer grown : Buffer)
    (rs rs' : RandState) :
  populate fuel horizon waypoint_buffer rs = Returns (grown, rs') -> grown <> [].
Proof.
  intros Hrun. destruct waypoint_buffer as [|fr b].
  - destruct fuel; discriminate Hrun.
  - destruct (populate_Returns fuel horizon (fr :: b) rs fr grown rs' eq_refl Hrun)
      as (Hhead & _). intros ->. discriminate Hhead.
Qed.

(** The loop raises no error on a map without successor-less waypoints. *)
Lemma populate_no_error (fuel : nat) (horizon : float) :
  (forall w, GetNextWaypoint w <> []) ->
  forall (waypoint_buffer : Buffer) (rs : RandState),
  waypoint_buffer <> [] ->
  populate fuel horizon waypoint_buffer rs = OutOfFuel \/
  exists r, populate fuel horizon waypoint_buffer rs = Returns r.
Proof.
  intros Hsucc. induction fuel as [|fuel IH]; intros b rs Hne; [now left|].
  simpl.
  destruct (proj2 (last_is_Some b) Hne) as [bk Hbk].
  unfold deque_back. rewrite Hbk. simpl.
  destruct b as [|fr b']; [congruence|]. simpl.
  destruct (fle (DistanceSquared bk fr) (pow2 horizon)); [|right; eauto].
  pose proof (select_index_lt (GetNextWaypoint bk) rs (Hsucc bk)) as Hlt.
  destruct (select_index (GetNextWaypoint bk) rs) as [idx rs1]. simpl in Hlt.
  destruct (vector_at_lt _ _ Hlt) as (nxt & Hnxt & _). rewrite Hnxt. simpl.
  apply IH. destruct b'; discriminate.
Qed.

(** The loop finishes when a rank decreases along every step it can take. *)
Lemma populate_terminates (horizon : float) (fr : SimpleWaypointPtr)
    (rank : SimpleWaypointPtr -> nat) :
  (forall w, GetNextWaypoint w <> []) ->
  (forall w w', (DistanceSquared w fr <= pow2 horizon)%Q ->
                w' ∈ GetNextWaypoint w -> rank w' < rank w) ->
  forall (fuel : nat) (waypoint_buffer : Buffer) (rs : RandState) (bk : SimpleWaypointPtr),
  head waypoint_buffer = Some fr -> last waypoint_buffer = Some bk ->
  rank bk < fuel ->
  exists r, populate fuel horizon waypoint_buffer rs = Returns r.
Proof.
  intros Hsucc Hrank.
  induction fuel as [|fuel IH]; intros b rs bk Hfr Hbk Hfuel; [lia|].
  simpl.
  rewrite (proj2 (deque_back_Returns b bk) Hbk), (proj2 (deque_front_Returns b fr) Hfr).
  simpl. destruct (fle (DistanceSquared bk fr) (pow2 horizon)) eqn:E; [|eauto].
  pose proof (select_index_lt (GetNextWaypoint bk) rs (Hsucc bk)) as Hlt.
  destruct (select_index (GetNextWaypoint bk) rs) as [idx rs1]. simpl in Hlt.
  destruct (vector_at_lt _ _ Hlt) as (nxt & Hnxt & Hlook). rewrite Hnxt. simpl.
  apply (IH _ _ nxt).
  - now apply head_snoc.
  - apply last_snoc.
  - apply fle_true in E. apply list_elem_of_lookup_2 in Hlook.
    specialize (Hrank bk nxt E Hlook). lia.
Qed.

(** ** The walks over the buffer *)

(** The walk to the target: it starts from the entry at index [c], the
    target of the moment, and ends at the first entry from there on that is
    not within the distance, or at the last entry of the buffer. *)
Lemma target_loop_Returns (waypoint_buffer : Buffer) (distance : float)
    (fr : SimpleWaypointPtr) :
  head waypoint_buffer = Some fr ->
  forall (bound i c : nat) (target : SimpleWaypointPtr),
  waypoint_buffer !! c = Some target -> c = pred i -> i <= length waypoint_buffer ->
  length waypoint_buffer - i < bound ->
  exists k t,
    target_loop bound waypoint_buffer distance i target = Returns t /\
    waypoint_buffer !! k = Some t /\ c <= k /\
    (forall j w, c <= j < k -> waypoint_buffer !! j = Some w ->
       (DistanceSquared fr w < pow2 distance)%Q) /\
    ((pow2 distance <= DistanceSquared fr t)%Q \/ S k = length waypoint_buffer).
Proof.
  intros Hfr. apply deque_front_Returns in Hfr.
  induction bound as [|bound IH]; intros i c target Hc Hci Hi Hbound; [lia|].
  pose proof (lookup_lt_Some _ _ _ Hc) as Hclt.
  simpl. destruct (i <? length waypoint_buffer) eqn:Ei.
  - apply Nat.ltb_lt in Ei. rewrite Hfr. simpl.
    destruct (flt (DistanceSquared fr target) (pow2 distance)) eqn:Ed.
    + destruct (vector_at_lt _ _ Ei) as (t1 & Ht1 & Hl1). rewrite Ht1. simpl.
      destruct (IH (S i) i t1 Hl1 eq_refl ltac:(lia) ltac:(lia))
        as (k & t & Hrun & Hk & Hik & Hbefore & Hstop).
      exists k, t. split; [assumption|]. split; [assumption|]. split; [lia|].
      split; [|assumption].
      intros j w Hj Hw. destruct (decide (i <= j)) as [Hij|Hij].
      * apply (Hbefore j w); [lia | assumption].
      * assert (j = c) by lia. subst j. rewrite Hc in Hw. inversion Hw; subst w.
        now apply flt_true.
    + exists c, target. split; [reflexivity|]. split; [assumption|]. split; [lia|].
      split; [intros j w Hj; lia|]. left. now apply flt_false.
  - apply Nat.ltb_ge in Ei.
    exists c, target. split; [reflexivity|]. split; [assumption|]. split; [lia|].
    split; [intros j w Hj; lia|]. right. lia.
Qed.

Lemma select_target_Returns (vehicle_velocity : float) (waypoint_buffer : Buffer)
    (fr : SimpleWaypointPtr) :
  head waypoint_buffer = Some fr ->
  exists k t,
    select_target vehicle_velocity waypoint_buffer = Returns t /\
    waypoint_buffer !! k = Some t /\
    (forall j w, j < k -> waypoint_buffer !! j = Some w ->
       (DistanceSquared fr w < pow2 (target_point_distance vehicle_velocity))%Q) /\
    ((pow2 (target_point_distance vehicle_velocity) <= DistanceSquared fr t)%Q \/
     S k = length waypoint_buffer).
Proof.
  intros Hfr. unfold select_target.
  rewrite (proj2 (deque_front_Returns _ _) Hfr), Returns_bind.
  assert (H0 : waypoint_buffer !! 0 = Some fr) by (destruct waypoint_buffer; exact Hfr).
  destruct (target_loop_Returns waypoint_buffer (target_point_distance vehicle_velocity)
              fr Hfr (S (length waypoint_buffer)) 0 0 fr H0 eq_refl ltac:(lia) ltac:(lia))
    as (k & t & Hrun & Hk & _ & Hbefore & Hstop).
  exists k, t. split; [assumption|]. split; [assumption|]. split; [|assumption].
  intros j w Hj. apply Hbefore. lia.
Qed.

(** The walk to the look-ahead point keeps the point and its index in step:
    the index is that of the point, hence within the buffer. *)
Lemma look_ahead_loop_Returns (waypoint_buffer : Buffer) (distance : float)
    (fr : SimpleWaypointPtr) :
  head waypoint_buffer = Some fr ->
  forall (bound i idx : nat) (point : SimpleWaypointPtr),
  waypoint_buffer !! idx = Some point ->
  length waypoint_buffer - i < bound ->
  exists p k,
    look_ahead_loop bound waypoint_buffer distance i point idx = Returns (p, k) /\
    waypoint_buffer !! k = Some p.
Proof.
  intros Hfr. apply deque_front_Returns in Hfr.
  induction bound as [|bound IH]; intros i idx point Hidx Hbound; [lia|].
  simpl. rewrite Hfr. simpl.
  destruct (flt (DistanceSquared fr point) (pow2 distance)); simpl; [|eauto].
  destruct (i <? length waypoint_buffer) eqn:Ei; [|eauto].
  apply Nat.ltb_lt in Ei.
  destruct (vector_at_lt _ _ Ei) as (p1 & Hp1 & Hl1). rewrite Hp1. simpl.
  apply IH; [assumption | lia].
Qed.

Lemma look_ahead_Returns (vehicle_velocity : float) (waypoint_buffer : Buffer)
    (fr : SimpleWaypointPtr) :
  head waypoint_buffer = Some fr ->
  exists p k,
    look_ahead vehicle_velocity waypoint_buffer = Returns (p, k) /\
    waypoint_buffer !! k = Some p.
Proof.
  intros Hfr. unfold look_ahead.
  rewrite (proj2 (deque_front_Returns _ _) Hfr), Returns_bind.
  apply (look_ahead_loop_Returns _ _ fr Hfr).
  - destruct waypoint_buffer; exact Hfr.
  - lia.
Qed.

(** The scan for a branch before the look-ahead index. *)
Lemma branch_loop_Returns (waypoint_buffer : Buffer) (look_ahead_index : nat) :
  look_ahead_index <= length waypoint_buffer ->
  forall (bound i : nat) (approaching_junction : bool),
  look_ahead_index - i < bound ->
  exists b,
    branch_loop bound waypoint_buffer look_ahead_index i approaching_junction = Returns b /\
    (b = true <->
     approaching_junction = true \/
     exists j w, i <= j < look_ahead_index /\ waypoint_buffer !! j = Some w /\
                 branches w = true).
Proof.
  intros Hidx. induction bound as [|bound IH]; intros i acc Hbound; [lia|].
  simpl. destruct (i <? look_ahead_index) eqn:Ei; simpl.
  - apply Nat.ltb_lt in Ei. destruct acc; simpl.
    + exists true. split; [reflexivity|]. tauto.
    + destruct (vector_at_lt waypoint_buffer i ltac:(lia)) as (swp & Hswp & Hl).
      rewrite Hswp. simpl.
      destruct (IH (S i) (if 1 <? length (GetNextWaypoint swp) then true else false)
                  ltac:(lia)) as (b & Hrun & Hb).
      exists b. split; [assumption|]. rewrite Hb. split.
      * intros [Hacc | (j & w & Hj & Hw & Hbr)].
        -- right. exists i, swp. split; [lia|]. split; [assumption|].
           unfold branches. destruct (1 <? length (GetNextWaypoint swp)); congruence.
        -- right. exists j, w. split; [lia|]. auto.
      * intros [Hacc | (j & w & Hj & Hw & Hbr)]; [discriminate|].
        destruct (decide (j = i)) as [->|Hne].
        -- left. rewrite Hl in Hw. inversion Hw; subst w.
           unfold branches in Hbr. now rewrite Hbr.
        -- right. exists j, w. split; [lia|]. auto.
  - apply Nat.ltb_ge in Ei. exists acc. split; [reflexivity|]. split; [tauto|].
    intros [H | (j & w & Hj & _)]; [assumption | lia].
Qed.

(** ** The claims on the populating loop *)

Lemma std_max_cases (a b : float) :
  (a <= std_max a b)%Q /\ (b <= std_max a b)%Q /\ (std_max a b = a \/ std_max a b = b).
Proof.
  unfold std_max. destruct (flt a b) eqn:E.
  - apply flt_true in E. split; [now apply Qlt_le_weak|]. split; [apply Qle_refl | now right].
  - apply flt_false in E. split; [apply Qle_refl|]. split; [assumption | now left].
Qed.

(** C2, as the code has it.  With [horizon_size] the larger of 25 and of 3
    times the velocity, the product rounded to the nearest float as the
    source computes it, one round of the loop appends one successor of the back
    of the buffer when the squared distance from the back to the front is at
    most the square of [horizon_size], equality included, and the loop
    returns the buffer as it is when that distance is greater.  A finished
    run has appended each of its waypoints in such a round and has stopped
    at a back whose squared distance to the front is greater than the
    square of [horizon_size]. *)
Theorem populate_appends_while_not_beyond_horizon
    (fuel : nat) (vehicle_velocity : float) (waypoint_buffer : Buffer) (rs : RandState)
    (bk fr : SimpleWaypointPtr) :
  last waypoint_buffer = Some bk -> head waypoint_buffer = Some fr ->
  let horizon := horizon_size vehicle_velocity in
  ((round_float (3 * vehicle_velocity) <= horizon)%Q /\ (25 <= horizon)%Q /\
   (horizon = round_float (3 * vehicle_velocity) \/ horizon = 25%Q)) /\
  ((DistanceSquared bk fr <= pow2 horizon)%Q ->
     populate (S fuel) horizon waypoint_buffer rs =
       (let '(selection_index, rs') := select_index (GetNextWaypoint bk) rs in
        nxt ← vector_at (GetNextWaypoint bk) selection_index;
        populate fuel horizon (waypoint_buffer ++ [nxt]) rs')) /\
  ((DistanceSquared bk fr == pow2 horizon)%Q ->
     forall grown rs', populate (S fuel) horizon waypoint_buffer rs = Returns (grown, rs') ->
     exists nxt rest, nxt ∈ GetNextWaypoint bk /\ grown = waypoint_buffer ++ nxt :: rest) /\
  ((pow2 horizon < DistanceSquared bk fr)%Q ->
     populate (S fuel) horizon waypoint_buffer rs = Returns (waypoint_buffer, rs)) /\
  (forall grown rs', populate fuel horizon waypoint_buffer rs = Returns (grown, rs') ->
     head grown = Some fr /\
     (exists bk', last grown = Some bk' /\ (pow2 horizon < DistanceSquared bk' fr)%Q) /\
     exists appended, grown = waypoint_buffer ++ appended /\
       forall k nxt, appended !! k = Some nxt ->
         exists bk', last (waypoint_buffer ++ take k appended) = Some bk' /\
           (DistanceSquared bk' fr <= pow2 horizon)%Q /\ nxt ∈ GetNextWaypoint bk').
Proof.
  intros Hbk Hfr horizon. split; [apply std_max_cases|].
  split; [now apply populate_within|]. split; [|split].
  - intros Heq grown rs' Hrun.
    destruct (populate_Returns _ _ _ _ fr _ _ Hfr Hrun)
      as (_ & (bk' & Hbk' & Hbeyond) & appended & Happ & Hsteps).
    destruct appended as [|nxt rest].
    + rewrite app_nil_r in Happ. subst grown. rewrite Hbk in Hbk'. inversion Hbk'; subst bk'.
      exfalso. rewrite Heq in Hbeyond. now apply Qlt_irrefl in Hbeyond.
    + exists nxt, rest. split; [|assumption].
      destruct (Hsteps 0 nxt eq_refl) as (bk0 & Hbk0 & _ & Hin).
      rewrite take_0, app_nil_r, Hbk in Hbk0. now inversion Hbk0; subst.
  - now apply populate_beyond.
  - intros grown rs'. now apply populate_Returns.
Qed.

(** C9, as the code has it.  When the back of the buffer has no successor
    and its squared distance to the front is not beyond the square of the
    horizon, the round of the loop fails with [OutOfRange] and returns no
    buffer; such a failure of the loop is the failure of the round of
    [Action] for that vehicle and of [Action] itself, which goes on to no
    other vehicle.  On a map where every waypoint has a successor the loop
    fails with no error: a run on fuel has either not finished or has
    returned a buffer.  It does return a buffer when, in addition, some rank
    of the waypoints decreases along every step the loop can take. *)
Theorem populate_fails_only_without_successor
    (fuel : nat) (horizon : float) (waypoint_buffer : Buffer) (rs : RandState)
    (bk fr : SimpleWaypointPtr) :
  last waypoint_buffer = Some bk -> head waypoint_buffer = Some fr ->
  (GetNextWaypoint bk = [] -> (DistanceSquared bk fr <= pow2 horizon)%Q ->
     populate (S fuel) horizon waypoint_buffer rs = OutOfRange) /\
  (forall i st vehicle wb cb st1,
     vector_at (actor_list st) i = Returns vehicle ->
     vector_at (current_buffer_list st) i = Returns wb ->
     vector_at (copy_buffer_list st) i = Returns cb ->
     let maintained := initialize (GetLocation vehicle) (purge vehicle (synchronize wb cb)) in
     assign_lane_change vehicle maintained (store_waypoint_buffer st i maintained)
       = Returns (waypoint_buffer, st1) ->
     populate fuel (horizon_size (GetVelocityLength vehicle)) waypoint_buffer rs = OutOfRange ->
     Action_vehicle fuel i st rs = OutOfRange /\
     forall end_index, i <= end_index -> Action fuel i end_index st rs = OutOfRange) /\
  ((forall w, GetNextWaypoint w <> []) ->
     populate fuel horizon waypoint_buffer rs = OutOfFuel \/
     exists r, populate fuel horizon waypoint_buffer rs = Returns r) /\
  ((forall w, GetNextWaypoint w <> []) ->
     forall rank : SimpleWaypointPtr -> nat,
     (forall w w', (DistanceSquared w fr <= pow2 horizon)%Q ->
                   w' ∈ GetNextWaypoint w -> rank w' < rank w) ->
     exists r, populate (S (rank bk)) horizon waypoint_buffer rs = Returns r).
Proof.
  intros Hbk Hfr. split; [|split; [|split]].
  - intros Hnone Hle. rewrite (populate_within _ _ _ _ _ _ Hbk Hfr Hle), Hnone.
    unfold select_index. reflexivity.
  - intros i st vehicle wb cb st1 Hv Hwb Hcb maintained Hlane Hfail.
    assert (Hone : Action_vehicle fuel i st rs = OutOfRange).
    { unfold Action_vehicle. rewrite Hv, Returns_bind, Hwb, Returns_bind, Hcb, Returns_bind.
      fold maintained. rewrite Hlane, Returns_bind, Hfail. reflexivity. }
    split; [assumption|].
    intros end_index Hle. unfold Action.
    replace (S end_index - i) with (S (end_index - i)) by lia.
    simpl. now rewrite Hone.
  - intros Hsucc. apply populate_no_error; [assumption|].
    intros ->. discriminate Hfr.
  - intros Hsucc rank Hrank.
    apply (populate_terminates horizon fr rank Hsucc Hrank _ _ _ bk Hfr Hbk). lia.
Qed.

(** ** The claims on the walks *)

(** C4, as the code has it.  With [target_point_distance] the larger of the
    ceiling of half the velocity and 2, the walk from the front of the
    buffer returns the first entry whose squared distance to the front is
    not below the square of [target_point_distance], every entry before it
    being below, or the last entry of the buffer when no entry is that far;
    at velocity 0 the distance is 2. *)
Theorem select_target_first_not_within
    (vehicle_velocity : float) (waypoint_buffer : Buffer) (fr : SimpleWaypointPtr) :
  head waypoint_buffer = Some fr ->
  let distance := target_point_distance vehicle_velocity in
  (distance = std_max (inject_Z (Qceiling (vehicle_velocity * (1 # 2)))) 2%Q /\
   target_point_distance 0%Q = 2%Q) /\
  exists k t,
    select_target vehicle_velocity waypoint_buffer = Returns t /\
    waypoint_buffer !! k = Some t /\
    (forall j w, j < k -> waypoint_buffer !! j = Some w ->
       (DistanceSquared fr w < pow2 distance)%Q) /\
    ((pow2 distance <= DistanceSquared fr t)%Q \/ S k = length waypoint_buffer).
Proof.
  intros Hfr distance. split; [split; reflexivity|].
  now apply select_target_Returns.
Qed.

(** C10. On a non-empty buffer the walk to the target, the walk to the
    look-ahead point, the scan for a branch and the read of the entry at
    [look_ahead_index] all stay within the buffer: none of them ends in
    [OutOfRange], [Undefined] or [OutOfFuel], the target is an entry of the
    buffer, and [look_ahead_index] is below the size of the buffer and is
    the index of the look-ahead point, so that the frames are edited
    whenever they have an entry for the vehicle.  On a buffer of one entry
    the target and the look-ahead point are that entry, at index 0. *)
Theorem walks_stay_within_buffer
    (vehicle_velocity speed_limit : float) (waypoint_buffer : Buffer) :
  waypoint_buffer <> [] ->
  (exists t, select_target vehicle_velocity waypoint_buffer = Returns t /\
             t ∈ waypoint_buffer) /\
  (exists p look_ahead_index,
     look_ahead vehicle_velocity waypoint_buffer = Returns (p, look_ahead_index) /\
     look_ahead_index < length waypoint_buffer /\
     vector_at waypoint_buffer look_ahead_index = Returns p /\
     (exists b, junction_filter speed_limit waypoint_buffer p look_ahead_index = Returns b) /\
     forall st i vehicle dot_product approaching_junction,
       i < length (select_frame (planner_frame_selector st)
                     (planner_frame_a st) (planner_frame_b st)) ->
       i < length (select_frame (collision_frame_selector st)
                     (collision_frame_a st) (collision_frame_b st)) ->
       i < length (select_frame (traffic_light_frame_selector st)
                     (traffic_light_frame_a st) (traffic_light_frame_b st)) ->
       exists st', edit_frames st i vehicle dot_product approaching_junction
                     waypoint_buffer look_ahead_index = Returns st') /\
  (forall w, waypoint_buffer = [w] ->
     select_target vehicle_velocity waypoint_buffer = Returns w /\
     look_ahead vehicle_velocity waypoint_buffer = Returns (w, 0)).
Proof.
  intros Hne. destruct waypoint_buffer as [|fr rest]; [congruence|].
  split; [|split].
  - destruct (select_target_Returns vehicle_velocity (fr :: rest) fr eq_refl)
      as (k & t & Hrun & Hk & _).
    exists t. split; [assumption|]. eapply list_elem_of_lookup_2; eassumption.
  - destruct (look_ahead_Returns vehicle_velocity (fr :: rest) fr eq_refl)
      as (p & k & Hrun & Hk).
    pose proof (lookup_lt_Some _ _ _ Hk) as Hlt.
    exists p, k. split; [assumption|]. split; [assumption|].
    split; [now apply vector_at_Returns|]. split.
    + unfold junction_filter.
      destruct (CheckJunction p); [|eexists; reflexivity].
      change (deque_front (fr :: rest)) with (Returns fr). rewrite Returns_bind.
      destruct (negb (CheckJunction fr)); [|eexists; reflexivity].
      destruct (flt HIGHWAY_SPEED speed_limit); [|eexists; reflexivity].
      destruct (branch_loop_Returns (fr :: rest) k ltac:(lia) (S k) 0 false ltac:(lia))
        as (b & Hb & _).
      eauto.
    + intros st i vehicle d a Hp Hc Ht. unfold edit_frames.
      destruct (vector_at_lt _ _ Hp) as (? & -> & _). rewrite Returns_bind.
      destruct (vector_at_lt _ _ Hc) as (? & -> & _). rewrite Returns_bind.
      destruct (vector_at_lt _ _ Ht) as (? & -> & _). rewrite Returns_bind.
      change (deque_front (fr :: rest)) with (Returns fr). rewrite Returns_bind.
      rewrite (proj2 (vector_at_Returns _ _ _) Hk), Returns_bind.
      eexists; reflexivity.
  - intros w Hw. inversion Hw; subst. unfold select_target, look_ahead. simpl.
    split; destruct (flt _ _); reflexivity.
Qed.

(** C6, as the code has it.  The flag is false unless the look-ahead point
    is in a junction and the front of the buffer is not.  In that case, for
    a speed limit above [HIGHWAY_SPEED], which is the float quotient
    50 / 3.6f = 3640889 / 262144 (13.88889...), the flag is
    true exactly when some entry of the buffer at an index below the
    look-ahead index has more than one successor, and for a speed limit of
    at most [HIGHWAY_SPEED] the flag is true. *)
Theorem junction_filter_flag
    (vehicle_velocity speed_limit : float) (waypoint_buffer : Buffer)
    (fr look_ahead_point : SimpleWaypointPtr) (look_ahead_index : nat) :
  head waypoint_buffer = Some fr ->
  look_ahead vehicle_velocity waypoint_buffer = Returns (look_ahead_point, look_ahead_index) ->
  (HIGHWAY_SPEED == 3640889 # 262144)%Q /\
  exists approaching_junction,
    junction_filter speed_limit waypoint_buffer look_ahead_point look_ahead_index
      = Returns approaching_junction /\
    (approaching_junction = true ->
       CheckJunction look_ahead_point = true /\ CheckJunction fr = false) /\
    (CheckJunction look_ahead_point = true -> CheckJunction fr = false ->
       ((HIGHWAY_SPEED < speed_limit)%Q ->
          (approaching_junction = true <->
           exists j w, j < look_ahead_index /\ waypoint_buffer !! j = Some w /\
                       1 < length (GetNextWaypoint w))) /\
       ((speed_limit <= HIGHWAY_SPEED)%Q -> approaching_junction = true)).
Proof.
  intros Hfr Hla. split; [vm_compute; reflexivity|].
  destruct (look_ahead_Returns vehicle_velocity waypoint_buffer fr Hfr)
    as (p & k & Hrun & Hk).
  rewrite Hla in Hrun. inversion Hrun; subst p k. clear Hrun.
  pose proof (lookup_lt_Some _ _ _ Hk) as Hlt.
  unfold junction_filter.
  destruct (CheckJunction look_ahead_point) eqn:Ep.
  2:{ exists false. split; [reflexivity|]. split; [discriminate|]. discriminate. }
  rewrite (proj2 (deque_front_Returns _ _) Hfr), Returns_bind.
  destruct (CheckJunction fr) eqn:Ef; simpl.
  { exists false. split; [reflexivity|]. split; [discriminate|]. discriminate. }
  destruct (flt HIGHWAY_SPEED speed_limit) eqn:Es.
  - destruct (branch_loop_Returns waypoint_buffer look_ahead_index ltac:(lia)
                (S look_ahead_index) 0 false ltac:(lia)) as (b & Hb & Hiff).
    exists b. split; [assumption|]. split; [auto|].
    intros _ _. split.
    + intros _. rewrite Hiff. split.
      * intros [H | (j & w & Hj & Hw & Hbr)]; [discriminate|].
        exists j, w. split; [lia|]. split; [assumption|].
        now apply Nat.ltb_lt in Hbr.
      * intros (j & w & Hj & Hw & Hbr). right.
        exists j, w. split; [lia|]. split; [assumption|].
        now apply Nat.ltb_lt.
    + intros Hle. apply flt_true in Es. exfalso.
      apply (Qlt_irrefl speed_limit). eapply Qle_lt_trans; eassumption.
  - exists true. split; [reflexivity|]. split; [auto|].
    intros _ _. split; [|reflexivity].
    intros Hlt'. apply flt_false in Es. exfalso.
    apply (Qlt_irrefl speed_limit). eapply Qle_lt_trans; eassumption.
Qed.

(** ** DataSender *)

(** C7. For the collision channel and for the traffic light channel alike:
    when the state of the messenger is not the recorded one, the selected
    frame is sent, the frame selector of the channel flips and the recorded
    state becomes the value that [SendData] returns; when the two states are
    the same, the messenger is left alone and neither the selector nor the
    recorded state changes. *)
Theorem DataSender_sends_on_new_state (st : LocalizationStage) (ms : Messengers) :
  let st' := fst (DataSender st ms) in
  let ms' := snd (DataSender st ms) in
  let collision_data_packet :=
    {| id := collision_messenger_state st;
       data := selected_frame (collision_frame_selector st) |} in
  let traffic_light_data_packet :=
    {| id := traffic_light_messenger_state st;
       data := selected_frame (traffic_light_frame_selector st) |} in
  (GetState (collision_messenger ms) <> collision_messenger_state st ->
     collision_messenger ms' = snd (SendData (collision_messenger ms) collision_data_packet) /\
     collision_frame_selector st' = negb (collision_frame_selector st) /\
     collision_messenger_state st' =
       fst (SendData (collision_messenger ms) collision_data_packet)) /\
  (GetState (collision_messenger ms) = collision_messenger_state st ->
     collision_messenger ms' = collision_messenger ms /\
     collision_frame_selector st' = collision_frame_selector st /\
     collision_messenger_state st' = collision_messenger_state st) /\
  (GetState (traffic_light_messenger ms) <> traffic_light_messenger_state st ->
     traffic_light_messenger ms' =
       snd (SendData (traffic_light_messenger ms) traffic_light_data_packet) /\
     traffic_light_frame_selector st' = negb (traffic_light_frame_selector st) /\
     traffic_light_messenger_state st' =
       fst (SendData (traffic_light_messenger ms) traffic_light_data_packet)) /\
  (GetState (traffic_light_messenger ms) = traffic_light_messenger_state st ->
     traffic_light_messenger ms' = traffic_light_messenger ms /\
     traffic_light_frame_selector st' = traffic_light_frame_selector st /\
     traffic_light_messenger_state st' = traffic_light_messenger_state st).
Proof.
  unfold DataSender.
  destruct (SendData (planner_messenger ms) _) as [pstate pm].
  destruct (Z.eqb_spec (GetState (collision_messenger ms)) (collision_messenger_state st))
    as [Ec|Ec];
  destruct (Z.eqb_spec (GetState (traffic_light_messenger ms))
              (traffic_light_messenger_state st)) as [Et|Et];
  simpl;
  repeat match goal with
         | |- context [SendData ?m ?p] => destruct (SendData m p) eqn:?
         end;
  simpl; repeat split; intros; try congruence; reflexivity.
Qed.

(** ** Action *)

Lemma current_store (st : LocalizationStage) (i : nat) (b : Buffer) :
  current_buffer_list (store_waypoint_buffer st i b) = <[i:=b]> (current_buffer_list st).
Proof.
  unfold current_buffer_list, store_waypoint_buffer, select_buffer_list.
  destruct (collision_frame_selector st) eqn:E; simpl; rewrite E; reflexivity.
Qed.

Lemma copy_store (st : LocalizationStage) (i : nat) (b : Buffer) :
  copy_buffer_list (store_waypoint_buffer st i b) = copy_buffer_list st.
Proof.
  unfold copy_buffer_list, store_waypoint_buffer, select_buffer_list.
  destruct (collision_frame_selector st) eqn:E; simpl; rewrite E; reflexivity.
Qed.

Lemma selector_store (st : LocalizationStage) (i : nat) (b : Buffer) :
  collision_frame_selector (store_waypoint_buffer st i b) = collision_frame_selector st.
Proof.
  unfold store_waypoint_buffer. destruct (collision_frame_selector st) eqn:E; simpl; now rewrite E.
Qed.

(** What a finished round has done to the two buffer lists. *)
Lemma assign_lane_change_Returns (vehicle : Actor) (waypoint_buffer changed : Buffer)
    (st st' : LocalizationStage) :
  assign_lane_change vehicle waypoint_buffer st = Returns (changed, st') ->
  current_buffer_list st' = current_buffer_list st /\
  copy_buffer_list st' = copy_buffer_list st /\
  collision_frame_selector st' = collision_frame_selector st /\
  exists fr, head waypoint_buffer = Some fr /\
    (changed = waypoint_buffer \/
     exists p, CheckJunction fr = false /\ changed = [p]).
Proof.
  unfold assign_lane_change. intros H.
  bind_inv H as fr Hfr.
  apply deque_front_Returns in Hfr.
  destruct (negb (CheckJunction fr)) eqn:Ej.
  - destruct (AssignLaneChange _ _ _ _ _ _ _) as [change td].
    inversion H; subst. clear H.
    split; [reflexivity|]. split; [reflexivity|]. split; [reflexivity|].
    exists fr. split; [assumption|].
    destruct change as [p|]; [right | now left].
    exists p. split; [now apply negb_true_iff in Ej | reflexivity].
  - inversion H; subst. clear H.
    split; [reflexivity|]. split; [reflexivity|]. split; [reflexivity|].
    exists fr. split; [assumption | now left].
Qed.

(** What a finished round has done to the two buffer lists. *)
Lemma Action_vehicle_Returns (fuel i : nat) (st st' : LocalizationStage) (rs rs' : RandState) :
  Action_vehicle fuel i st rs = Returns (st', rs') ->
  exists grown,
    grown <> [] /\ i < length (current_buffer_list st) /\
    current_buffer_list st' = <[i:=grown]> (current_buffer_list st) /\
    copy_buffer_list st' = copy_buffer_list st /\
    collision_frame_selector st' = collision_frame_selector st.
Proof.
  unfold Action_vehicle. intros H.
  bind_inv H as vehicle Hv.
  bind_inv H as wb Hwb.
  bind_inv H as cb Hcb.
  bind_inv H as [b4 st4] Hlane.
  bind_inv H as [grown rs5] Hgrow.
  bind_inv H as target Htarget.
  bind_inv H as [p idx] Hla.
  bind_inv H as approaching Hjf.
  bind_inv H as st6 Hedit.
  inversion H; subst st6 rs5. clear H.
  apply vector_at_Returns in Hwb.
  exists grown. split; [eapply populate_nonempty; eassumption|].
  split; [eapply lookup_lt_Some; eassumption|].
  destruct (assign_lane_change_Returns _ _ _ _ _ Hlane) as (Hcur4 & Hcopy4 & Hsel4 & _).
  rewrite current_store in Hcur4. rewrite copy_store in Hcopy4.
  rewrite selector_store in Hsel4.
  unfold edit_frames in Hedit.
  bind_inv Hedit as ? Hskip; clear Hskip.
  bind_inv Hedit as ? Hskip; clear Hskip.
  bind_inv Hedit as ? Hskip; clear Hskip.
  bind_inv Hedit as ? Hskip; clear Hskip.
  bind_inv Hedit as ? Hskip; clear Hskip.
  inversion Hedit; subst st'. clear Hedit.
  pose proof (current_store st4 i grown) as Hcur.
  pose proof (copy_store st4 i grown) as Hcopy.
  pose proof (selector_store st4 i grown) as Hsel.
  unfold current_buffer_list, copy_buffer_list, select_buffer_list in *. simpl in *.
  rewrite Hsel, Hsel4. rewrite Hsel, Hsel4 in Hcur, Hcopy.
  rewrite Hcur, Hcopy. rewrite Hsel4 in Hcur4, Hcopy4. rewrite Hcur4, Hcopy4.
  split; [apply list_insert_insert_eq|]. split; reflexivity.
Qed.

Lemma Action_loop_Returns (fuel rounds : nat) :
  forall (i : nat) (st st' : LocalizationStage) (rs rs' : RandState),
  Action_loop fuel rounds i st rs = Returns (st', rs') ->
  copy_buffer_list st' = copy_buffer_list st /\
  collision_frame_selector st' = collision_frame_selector st /\
  length (current_buffer_list st') = length (current_buffer_list st) /\
  (forall j b, j < i -> current_buffer_list st !! j = Some b ->
               current_buffer_list st' !! j = Some b) /\
  (forall j, i <= j < i + rounds ->
     exists b, current_buffer_list st' !! j = Some b /\ b <> []).
Proof.
  induction rounds as [|rounds IH]; intros i st st' rs rs' H.
  - inversion H; subst. split; [reflexivity|]. split; [reflexivity|].
    split; [reflexivity|]. split; [auto|]. intros j Hj. lia.
  - simpl in H. bind_inv H as [st1 rs1] Hone.
    destruct (Action_vehicle_Returns _ _ _ _ _ _ Hone)
      as (grown & Hne & Hlt & Hcur & Hcopy & Hsel).
    destruct (IH _ _ _ _ _ H) as (Hcopy' & Hsel' & Hlen' & Hbelow & Hrange).
    split; [congruence|]. split; [congruence|].
    split; [now rewrite Hlen', Hcur, length_insert|]. split.
    + intros j b Hj Hb. apply Hbelow; [lia|].
      rewrite Hcur, list_lookup_insert_ne; [assumption | lia].
    + intros j Hj. destruct (decide (j = i)) as [->|Hji].
      * exists grown. split; [|assumption]. apply Hbelow; [lia|].
        rewrite Hcur. now apply list_lookup_insert_eq.
      * apply Hrange. lia.
Qed.

(** C1. When [Action] has finished a vehicle, the buffer of that vehicle in
    the current buffer list is not empty, and so it is for every vehicle from
    [start_index] to [end_index] when [Action] returns.  On the way: after
    the initialization that follows the purge the buffer is not empty,
    whatever the purge has left, and holds the nearest waypoint of the map
    alone when the purge has left nothing; a lane change leaves exactly the
    change-over point in the buffer; and the populating loop returns the
    buffer it was given with waypoints appended. *)
Theorem Action_leaves_buffers_nonempty
    (fuel start_index end_index : nat) (st st' : LocalizationStage) (rs rs' : RandState) :
  Action fuel start_index end_index st rs = Returns (st', rs') ->
  (forall i, start_index <= i <= end_index ->
     exists waypoint_buffer,
       current_buffer_list st' !! i = Some waypoint_buffer /\ waypoint_buffer <> []) /\
  (forall i st0 rs0 st1 rs1,
     Action_vehicle fuel i st0 rs0 = Returns (st1, rs1) ->
     exists waypoint_buffer,
       current_buffer_list st1 !! i = Some waypoint_buffer /\ waypoint_buffer <> []) /\
  (forall vehicle waypoint_buffer,
     initialize (GetLocation vehicle) (purge vehicle waypoint_buffer) <> [] /\
     (purge vehicle waypoint_buffer = [] ->
      initialize (GetLocation vehicle) (purge vehicle waypoint_buffer)
        = [GetWaypoint (GetLocation vehicle)])) /\
  (forall change_over_point waypoint_buffer,
     redirect (Some change_over_point) waypoint_buffer = [change_over_point] /\
     redirect None waypoint_buffer = waypoint_buffer) /\
  (forall vehicle waypoint_buffer st0 changed st1,
     assign_lane_change vehicle waypoint_buffer st0 = Returns (changed, st1) ->
     changed <> []) /\
  (forall horizon waypoint_buffer rs0 grown rs1,
     populate fuel horizon waypoint_buffer rs0 = Returns (grown, rs1) ->
     grown <> [] /\ exists appended, grown = waypoint_buffer ++ appended).
Proof.
  intros H. split; [|split; [|split; [|split; [|split]]]].
  - intros i Hi. unfold Action in H.
    destruct (Action_loop_Returns _ _ _ _ _ _ _ H) as (_ & _ & _ & _ & Hrange).
    apply Hrange. lia.
  - intros i st0 rs0 st1 rs1 Hone.
    destruct (Action_vehicle_Returns _ _ _ _ _ _ Hone) as (grown & Hne & Hlt & Hcur & _).
    exists grown. split; [|assumption]. rewrite Hcur. now apply list_lookup_insert_eq.
  - intros vehicle b. split.
    + unfold initialize. destruct (purge vehicle b); discriminate.
    + intros ->. reflexivity.
  - intros c b. split; reflexivity.
  - intros vehicle b st0 changed st1 Hlane.
    destruct (assign_lane_change_Returns _ _ _ _ _ Hlane)
      as (_ & _ & _ & fr & Hfr & [-> | (p & _ & ->)]).
    + intros ->. discriminate Hfr.
    + discriminate.
  - intros horizon b rs0 grown rs1 Hrun.
    split; [eapply populate_nonempty; eassumption|].
    destruct b as [|fr b]; [destruct fuel; discriminate|].
    destruct (populate_Returns fuel horizon (fr :: b) rs0 fr grown rs1 eq_refl Hrun)
      as (_ & _ & ext & Hext & _).
    eauto.
Qed.

(** C8. [Action] does not write to the buffer list that the collision frame
    selector does not select: when it has finished a vehicle, and when it
    returns, that list is the one it was before, entry by entry, and the
    selector is unchanged. *)
Theorem Action_keeps_copy_buffer_list
    (fuel start_index end_index : nat) (st st' : LocalizationStage) (rs rs' : RandState) :
  Action fuel start_index end_index st rs = Returns (st', rs') ->
  collision_frame_selector st' = collision_frame_selector st /\
  copy_buffer_list st' = copy_buffer_list st /\
  select_buffer_list (negb (collision_frame_selector st)) st'
    = select_buffer_list (negb (collision_frame_selector st)) st /\
  (forall i, copy_buffer_list st' !! i = copy_buffer_list st !! i) /\
  (forall i st0 rs0 st1 rs1,
     Action_vehicle fuel i st0 rs0 = Returns (st1, rs1) ->
     collision_frame_selector st1 = collision_frame_selector st0 /\
     copy_buffer_list st1 = copy_buffer_list st0).
Proof.
  intros H. unfold Action in H.
  destruct (Action_loop_Returns _ _ _ _ _ _ _ H) as (Hcopy & Hsel & _).
  split; [assumption|]. split; [assumption|]. split; [|split].
  - unfold copy_buffer_list in Hcopy. now rewrite Hsel in Hcopy.
  - intros i. now rewrite Hcopy.
  - intros i st0 rs0 st1 rs1 Hone.
    destruct (Action_vehicle_Returns _ _ _ _ _ _ Hone) as (_ & _ & _ & _ & Hcopy1 & Hsel1).
    auto.
Qed.

End Properties.

(** * The properties at work on the small world *)

Import Toy.

(** [round_float] on the constants of the source and on some values next
    to a float: 3.6f, 50 / 3.6f, 0.1f, a product 3.0f * velocity that is
    rounded down, a difference 1 - x that rounds to 1, a tie that goes to the
    even neighbour, and floats, which are left as they are. *)
Example round_float_values :
  (round_float (36 # 10) == 7549747 # 2097152)%Q /\
  (HIGHWAY_SPEED == 3640889 # 262144)%Q /\
  (round_float (1 # 10) == 13421773 # 134217728)%Q /\
  (round_float (3 * (10485783 # 1048576)) == 7864337 # 262144)%Q /\
  (round_float (1 - (1 # 1073741824)) == 1)%Q /\
  (round_float (16777217 # 1) == 16777216 # 1)%Q /\
  (round_float (16777219 # 1) == 16777220 # 1)%Q /\
  (round_float (- (1 # 3)) == - (11184811 # 33554432))%Q /\
  (round_float 25 == 25)%Q /\ (round_float (1 # 2) == 1 # 2)%Q /\
  (round_float (1 # 713623846352979940529142984724747568191373312)
     == 1 # 713623846352979940529142984724747568191373312)%Q /\
  (round_float (1 # 1427247692705959881058285969449495136382746624) == 0)%Q.
Proof. repeat split; vm_compute; reflexivity. Qed.

(** The rounding of the product decides whether the loop goes on: at this
    velocity a back at squared distance 900.00390625 is beyond the horizon
    of the source, and would not be beyond 3 times the velocity. *)
Example horizon_size_rounds :
  (horizon_size (10485783 # 1048576) == 7864337 # 262144)%Q /\
  fle (230401 # 256)%Q (pow2 (horizon_size (10485783 # 1048576)%Q)) = false /\
  fle (230401 # 256)%Q (pow2 (3 * (10485783 # 1048576))%Q) = true.
Proof. repeat split; vm_compute; reflexivity. Qed.

(** At a speed limit equal to [HIGHWAY_SPEED] the flag is set without a
    scan for a branch. *)
Example junction_filter_at_highway_speed :
  @junction_filter road HIGHWAY_SPEED [wp0; wp1; wp2] wp1 1 = Returns true /\
  @junction_filter road (125 # 9)%Q [wp0; wp1; wp2] wp1 1 = Returns true.
Proof. split; vm_compute; reflexivity. Qed.

(** C1 on the straight road: the car starts with empty buffers, [Action]
    finishes, and the buffer of the car is not empty. *)
Lemma Action_leaves_buffers_nonempty_witness :
  @Action road 10 0 0 road_stage 0 = Returns (road_stage_after, 0) /\
  forall i, 0 <= i <= 0 ->
    exists waypoint_buffer,
      @current_buffer_list road road_stage_after !! i = Some waypoint_buffer /\
      waypoint_buffer <> [].
Proof.
  assert (H : @Action road 10 0 0 road_stage 0 = Returns (road_stage_after, 0))
    by (vm_compute; reflexivity).
  split; [exact H|].
  exact (proj1 (@Action_leaves_buffers_nonempty road 10 0 0 road_stage road_stage_after 0 0 H)).
Defined.

(** A lane change on the way: the buffer restarts from the change-over point
    [wp1] and is populated from there. *)
Example Action_with_lane_change :
  exists st' rs',
    @Action road_with_lane_change 10 0 0
      (stage (W:=road_with_lane_change) parked [wp0] [] []) 0 = Returns (st', rs') /\
    @current_buffer_list road_with_lane_change st' = [[wp1; wp2; wp3]] /\
    @copy_buffer_list road_with_lane_change st' = [[]].
Proof. eexists _, _. vm_compute. split; [reflexivity|]. split; reflexivity. Qed.

(** A car between [wp1] and [wp2] has passed [wp0] and [wp1]. *)
Example purge_on_road :
  @purge road (parked_at 30%Q 30%Q) [wp0; wp1; wp2; wp3] = [wp2; wp3] /\
  @purge road (parked_at 100%Q 30%Q) [wp0; wp1; wp2; wp3] = [] /\
  @purge road (parked_at (-5)%Q 30%Q) [wp0; wp1; wp2; wp3] = [wp0; wp1; wp2; wp3].
Proof. vm_compute. split; [reflexivity|]. split; reflexivity. Qed.

(** C8 on the straight road. *)
Lemma Action_keeps_copy_buffer_list_witness :
  @Action road 10 0 0 road_stage 0 = Returns (road_stage_after, 0) /\
  @copy_buffer_list road road_stage_after = @copy_buffer_list road road_stage.
Proof.
  assert (H : @Action road 10 0 0 road_stage 0 = Returns (road_stage_after, 0))
    by (vm_compute; reflexivity).
  split; [exact H|].
  exact (proj1 (proj2
    (@Action_keeps_copy_buffer_list road 10 0 0 road_stage road_stage_after 0 0 H))).
Defined.

(** C2 on the straight road, at velocity 0: the buffer reaches from [wp0]
    to [wp1], 25 units away, which is exactly the horizon, and a finished
    run has appended a successor of [wp1]. *)
Lemma populate_appends_while_not_beyond_horizon_witness :
  last [wp0; wp1] = Some wp1 /\ head [wp0; wp1] = Some wp0 /\
  (@DistanceSquared road wp1 wp0 == pow2 (horizon_size 0%Q))%Q /\
  forall grown rs',
    @populate road 5 (horizon_size 0%Q) [wp0; wp1] 0 = Returns (grown, rs') ->
    exists nxt rest, nxt ∈ @GetNextWaypoint road wp1 /\ grown = [wp0; wp1] ++ nxt :: rest.
Proof.
  assert (Heq : (@DistanceSquared road wp1 wp0 == pow2 (horizon_size 0%Q))%Q)
    by (vm_compute; reflexivity).
  split; [reflexivity|]. split; [reflexivity|]. split; [exact Heq|].
  pose proof (@populate_appends_while_not_beyond_horizon road 4 0%Q [wp0; wp1] 0 wp1 wp0
                eq_refl eq_refl) as H.
  cbv zeta in H. exact (proj1 (proj2 (proj2 H)) Heq).
Defined.

(** The claim C2 as it is worded fails there: at a squared distance equal to
    the square of the horizon the loop does append a waypoint. *)
Lemma populate_appends_at_equality :
  (@DistanceSquared road wp1 wp0 == pow2 (horizon_size 0%Q))%Q /\
  @populate road 5 (horizon_size 0%Q) [wp0; wp1] 0 = Returns ([wp0; wp1; wp2], 0) /\
  ~ (exists fuel rs', @populate road fuel (horizon_size 0%Q) [wp0; wp1] 0
                      = Returns ([wp0; wp1], rs')).
Proof.
  split; [vm_compute; reflexivity|]. split; [vm_compute; reflexivity|].
  intros (fuel & rs' & Hrun).
  destruct (@populate_Returns road fuel (horizon_size 0%Q) [wp0; wp1] 0 wp0 _ _ eq_refl Hrun)
    as (_ & (bk & Hbk & Hbeyond) & _).
  inversion Hbk; subst bk. vm_compute in Hbeyond. discriminate Hbeyond.
Qed.

(** C4 on the straight road, at velocity 0. *)
Lemma select_target_first_not_within_witness :
  head [wp0; wp1; wp2] = Some wp0 /\
  exists k t,
    @select_target road 0%Q [wp0; wp1; wp2] = Returns t /\
    [wp0; wp1; wp2] !! k = Some t /\
    (forall j w, j < k -> [wp0; wp1; wp2] !! j = Some w ->
       (@DistanceSquared road wp0 w < pow2 (target_point_distance 0%Q))%Q) /\
    ((pow2 (target_point_distance 0%Q) <= @DistanceSquared road wp0 t)%Q \/
     S k = length [wp0; wp1; wp2]).
Proof.
  split; [reflexivity|].
  exact (proj2 (@select_target_first_not_within road 0%Q [wp0; wp1; wp2] wp0 eq_refl)).
Defined.

(** The claim C4 as it is worded fails there: the target is [wp1], 25 units
    from the front, and not [wp0], the last entry less than 2 units from the
    front. *)
Lemma select_target_beyond_distance :
  target_point_distance 0%Q = 2%Q /\
  @select_target road 0%Q [wp0; wp1; wp2] = Returns wp1 /\
  (@DistanceSquared road wp0 wp0 < pow2 (target_point_distance 0%Q))%Q /\
  (pow2 (target_point_distance 0%Q) <= @DistanceSquared road wp0 wp1)%Q /\
  ~ (exists t, @select_target road 0%Q [wp0; wp1; wp2] = Returns t /\
               (@DistanceSquared road wp0 t < pow2 (target_point_distance 0%Q))%Q).
Proof.
  split; [reflexivity|]. split; [vm_compute; reflexivity|].
  split; [vm_compute; reflexivity|]. split; [vm_compute; discriminate|].
  intros (t & Ht & Hlt). vm_compute in Ht. inversion Ht; subst t.
  vm_compute in Hlt. discriminate Hlt.
Qed.

(** C5 on the straight road: [wp3] is on another lane than [wp0]. *)
Lemma synchronize_exactly_when_fronts_differ_witness :
  @fronts_differ road [wp0; wp1] [wp3] /\ ~ @fronts_differ road [wp0; wp1] [wp0] /\
  @synchronize road [wp0; wp1] [wp3] = [wp3] /\
  @synchronize road [wp0; wp1] [wp0] = [wp0; wp1].
Proof.
  assert (Hd : @fronts_differ road [wp0; wp1] [wp3]).
  { exists wp0, wp3. split; [reflexivity|]. split; [reflexivity|]. discriminate. }
  assert (Hs : ~ @fronts_differ road [wp0; wp1] [wp0]).
  { intros (w & c & Hw & Hc & Hne). inversion Hw; inversion Hc; subst. now apply Hne. }
  split; [exact Hd|]. split; [exact Hs|]. split.
  - exact (proj1 (@synchronize_exactly_when_fronts_differ road [wp0; wp1] [wp3]) Hd).
  - exact (proj1 (proj2 (@synchronize_exactly_when_fronts_differ road [wp0; wp1] [wp0])) Hs).
Defined.

(** C6 on the road with a fork at [wp0], at a speed limit of 30. *)
Lemma junction_filter_flag_witness :
  head [wp0; wp1; wp2] = Some wp0 /\
  @look_ahead road_with_fork 0%Q [wp0; wp1; wp2] = Returns (wp1, 1) /\
  exists approaching_junction,
    @junction_filter road_with_fork 30%Q [wp0; wp1; wp2] wp1 1 = Returns approaching_junction /\
    (approaching_junction = true ->
       @CheckJunction road_with_fork wp1 = true /\ @CheckJunction road_with_fork wp0 = false) /\
    (@CheckJunction road_with_fork wp1 = true -> @CheckJunction road_with_fork wp0 = false ->
       ((HIGHWAY_SPEED < 30)%Q ->
          (approaching_junction = true <->
           exists j w, j < 1 /\ [wp0; wp1; wp2] !! j = Some w /\
                       1 < length (@GetNextWaypoint road_with_fork w))) /\
       ((30 <= HIGHWAY_SPEED)%Q -> approaching_junction = true)).
Proof.
  assert (H : @look_ahead road_with_fork 0%Q [wp0; wp1; wp2] = Returns (wp1, 1))
    by (vm_compute; reflexivity).
  split; [reflexivity|]. split; [exact H|].
  exact (proj2 (@junction_filter_flag road_with_fork 0%Q 30%Q [wp0; wp1; wp2] wp0 wp1 1
                  eq_refl H)).
Defined.

(** The claim C6 as it is worded fails on the straight road at a speed limit
    of 13.889, which is above 50 / 3.6f and not above 13.89: the look-ahead
    point is in a junction, the front is not, and the flag is false. *)
Lemma junction_filter_between_thresholds :
  (HIGHWAY_SPEED < 13889 # 1000)%Q /\ (13889 # 1000 <= 1389 # 100)%Q /\
  @look_ahead road 0%Q [wp0; wp1; wp2] = Returns (wp1, 1) /\
  @CheckJunction road wp1 = true /\ @CheckJunction road wp0 = false /\
  @junction_filter road (13889 # 1000)%Q [wp0; wp1; wp2] wp1 1 = Returns false.
Proof.
  split; [vm_compute; reflexivity|]. split; [vm_compute; discriminate|].
  split; [vm_compute; reflexivity|]. split; [reflexivity|]. split; [reflexivity|].
  vm_compute; reflexivity.
Qed.

(** C7: the collision messenger has moved on and gets a packet, the traffic
    light messenger has not and gets none. *)
Lemma DataSender_sends_on_new_state_witness :
  @GetState road (collision_messenger messengers) <> collision_messenger_state road_stage /\
  @GetState road (traffic_light_messenger messengers)
    = traffic_light_messenger_state road_stage /\
  collision_frame_selector (fst (@DataSender road road_stage messengers))
    = negb (collision_frame_selector road_stage) /\
  traffic_light_messenger (snd (@DataSender road road_stage messengers))
    = traffic_light_messenger messengers.
Proof.
  assert (Hc : @GetState road (collision_messenger messengers)
               <> collision_messenger_state road_stage) by discriminate.
  assert (Ht : @GetState road (traffic_light_messenger messengers)
               = traffic_light_messenger_state road_stage) by reflexivity.
  split; [exact Hc|]. split; [exact Ht|].
  pose proof (@DataSender_sends_on_new_state road road_stage messengers) as H.
  cbv zeta in H. destruct H as (Hsend & _ & _ & Hskip).
  split; [exact (proj1 (proj2 (Hsend Hc))) | exact (proj1 (Hskip Ht))].
Defined.

(** C9: on the road that ends at [wp1] the loop fails, and [Action] with
    it; on the straight road the loop returns. *)
Lemma populate_fails_only_without_successor_witness :
  @populate road_with_dead_end 5 (horizon_size 0%Q) [wp0; wp1] 0 = OutOfRange /\
  @Action road_with_dead_end 5 0 0 (stage (W:=road_with_dead_end) parked [] [] []) 0
    = OutOfRange /\
  (forall w, @GetNextWaypoint road w <> []) /\
  exists r, @populate road (S (rank wp0)) (horizon_size 0%Q) [wp0] 0 = Returns r.
Proof.
  assert (Hsucc : forall w, @GetNextWaypoint road w <> []) by (intros []; discriminate).
  assert (Hrank : forall w w' : waypoint,
            (@DistanceSquared road w wp0 <= pow2 (horizon_size 0%Q))%Q ->
            w' ∈ @GetNextWaypoint road w -> rank w' < rank w).
  { intros w w' Hle Hin. apply list_elem_of_In in Hin.
    destruct w; simpl in Hin; destruct Hin as [<-|[]]; simpl; try lia;
      exfalso; vm_compute in Hle; now apply Hle. }
  split; [|split; [|split; [exact Hsucc|]]].
  - refine (proj1 (@populate_fails_only_without_successor road_with_dead_end 4
                     (horizon_size 0%Q) [wp0; wp1] 0 wp1 wp0 eq_refl eq_refl) eq_refl _).
    vm_compute. discriminate.
  - refine (proj2 (proj1 (proj2
              (@populate_fails_only_without_successor road_with_dead_end 5
                 (horizon_size 0%Q) [wp0] 0 wp0 wp0 eq_refl eq_refl))
              0 (stage (W:=road_with_dead_end) parked [] [] []) parked [] [] _
              eq_refl eq_refl eq_refl _ _) 0 (le_n 0)).
    + vm_compute. reflexivity.
    + vm_compute. reflexivity.
  - exact (proj2 (proj2 (proj2 (@populate_fails_only_without_successor road 0
                           (horizon_size 0%Q) [wp0] 0 wp0 wp0 eq_refl eq_refl)))
             Hsucc rank Hrank).
Defined.

(** The claim C9 as it is worded fails on the roundabout, where every
    waypoint has a successor and [wp0] and [wp1] follow each other within
    the horizon: the loop never returns. *)
Lemma populate_never_returns_on_roundabout :
  (forall w, @GetNextWaypoint roundabout w <> []) /\
  ~ (exists fuel r, @populate roundabout fuel (horizon_size 0%Q) [wp0] 0 = Returns r).
Proof.
  split; [intros []; discriminate|].
  intros (fuel & r & Hrun).
  assert (Hloop : forall fuel (b : list waypoint) rs bk,
            head b = Some wp0 -> last b = Some bk -> bk = wp0 \/ bk = wp1 ->
            @populate roundabout fuel (horizon_size 0%Q) b rs = OutOfFuel).
  { clear. induction fuel as [|fuel IH]; intros b rs bk Hfr Hbk Hcase; [reflexivity|].
    rewrite (@populate_within roundabout fuel (horizon_size 0%Q) b rs bk wp0 Hbk Hfr).
    - destruct Hcase as [-> | ->]; simpl.
      + apply (IH _ _ wp1); [now apply (@head_snoc roundabout) | apply last_snoc | now right].
      + apply (IH _ _ wp0); [now apply (@head_snoc roundabout) | apply last_snoc | now left].
    - destruct Hcase as [-> | ->]; vm_compute; discriminate. }
  rewrite (Hloop fuel [wp0] 0 wp0 eq_refl eq_refl (or_introl eq_refl)) in Hrun.
  discriminate Hrun.
Qed.

(** C10 on a buffer of one entry. *)
Lemma walks_stay_within_buffer_witness :
  [wp0] <> [] /\
  @select_target road 0%Q [wp0] = Returns wp0 /\ @look_ahead road 0%Q [wp0] = Returns (wp0, 0).
Proof.
  assert (Hne : [wp0] <> ([] : list waypoint)) by discriminate.
  split; [exact Hne|].
  exact (proj2 (proj2 (@walks_stay_within_buffer road 0%Q 30%Q [wp0] Hne)) wp0 eq_refl).
Defined.

(** * Further properties of the stage *)

(** ** Rounding to the nearest float *)

Lemma two_power_pos (e : Z) : (0 < 2 ^ e)%Q.
Proof. apply Qpower_0_lt. reflexivity. Qed.

Lemma two_power_le (a b : Z) : (a <= b)%Z -> (2 ^ a <= 2 ^ b)%Q.
Proof. intros H. apply Qpower_le_compat_l; [assumption | discriminate]. Qed.

Lemma two_power_plus (a b : Z) : (2 ^ (a + b) == 2 ^ a * 2 ^ b)%Q.
Proof. apply Qpower_plus. discriminate. Qed.

Lemma two_power_inject (n : Z) : (0 <= n)%Z -> (2 ^ n == inject_Z (2 ^ n))%Q.
Proof. intros H. now rewrite Zpower_Qpower. Qed.

Lemma floor_log2_le (q : Q) : (0 < q)%Q -> (2 ^ floor_log2 q <= q)%Q.
Proof.
  intros Hq. unfold floor_log2. destruct q as [n d]. cbn [Qnum Qden].
  set (e := (Z.log2 n - Z.log2 (Zpos d))%Z).
  destruct (Qle_bool (2 ^ e) (n # d)) eqn:E; [now apply Qle_bool_iff|].
  assert (Hn : (0 < n)%Z) by (unfold Qlt in Hq; simpl in Hq; lia).
  pose proof (Z.log2_spec n Hn) as [Hn1 _].
  pose proof (Z.log2_spec (Zpos d) (Pos2Z.is_pos d)) as [_ Hd2].
  pose proof (Z.log2_nonneg n) as Hln. pose proof (Z.log2_nonneg (Zpos d)) as Hld.
  replace (e - 1)%Z with (Z.log2 n + - Z.succ (Z.log2 (Zpos d)))%Z by (subst e; lia).
  rewrite two_power_plus, Qpower_opp, !two_power_inject by lia.
  rewrite (Qmake_Qdiv n d).
  assert (H1 : (inject_Z (2 ^ Z.log2 n) <= inject_Z n)%Q) by now rewrite <- Zle_Qle.
  assert (H2 : (inject_Z (Zpos d) <= inject_Z (2 ^ Z.succ (Z.log2 (Zpos d))))%Q)
    by (rewrite <- Zle_Qle; lia).
  assert (H3 : (0 < inject_Z (Zpos d))%Q) by (rewrite <- (Zlt_Qlt 0); lia).
  assert (H4 : (0 <= inject_Z (2 ^ Z.log2 n))%Q) by (rewrite <- (Zle_Qle 0); lia).
  set (a := inject_Z (2 ^ Z.log2 n)) in *. set (b := inject_Z n) in *.
  set (c := inject_Z (Zpos d)) in *.
  set (f := inject_Z (2 ^ Z.succ (Z.log2 (Zpos d)))) in *.
  assert (H5 : (0 < f)%Q) by lra.
  apply Qle_shift_div_l; [assumption|].
  apply Qle_trans with (a * / f * f)%Q.
  - apply Qmult_le_compat_nonneg.
    + split; [|apply Qle_refl]. apply Qmult_le_0_compat; [assumption|].
      apply Qlt_le_weak, Qinv_lt_0_compat. assumption.
    + split; [lra | assumption].
  - rewrite <- Qmult_assoc, (Qmult_comm (/ f)), Qmult_inv_r by lra. lra.
Qed.

Lemma floor_log2_nonneg (q : Q) : (1 <= q)%Q -> (0 <= floor_log2 q)%Z.
Proof.
  intros Hq. unfold floor_log2. destruct q as [n d]. cbn [Qnum Qden].
  set (e := (Z.log2 n - Z.log2 (Zpos d))%Z).
  assert (He : (0 <= e)%Z).
  { subst e. unfold Qle in Hq. cbn [Qnum Qden] in Hq.
    assert (H : (Zpos d <= n)%Z) by lia.
    pose proof (Z.log2_le_mono _ _ H). lia. }
  destruct (Qle_bool (2 ^ e) (n # d)) eqn:E; [assumption|].
  destruct (Z.eq_dec e 0%Z) as [H0|H0]; [|lia].
  rewrite H0 in E. apply not_true_iff_false in E. exfalso. apply E.
  apply Qle_bool_iff. exact Hq.
Qed.

Lemma round_half_even_bounds (y : Q) :
  (y - (1 # 2) <= inject_Z (round_half_even y))%Q /\
  (inject_Z (round_half_even y) <= y + (1 # 2))%Q.
Proof.
  unfold round_half_even.
  pose proof (Qfloor_le y) as H1. pose proof (Qlt_floor y) as H2.
  rewrite inject_Z_plus in H2. change (inject_Z 1) with 1%Q in H2.
  destruct (y - inject_Z (Qfloor y) ?= 1 # 2)%Q eqn:E.
  - apply Qeq_alt in E. destruct (Z.even (Qfloor y));
      rewrite ?inject_Z_plus; change (inject_Z 1) with 1%Q; lra.
  - apply Qlt_alt in E. lra.
  - apply Qgt_alt in E. rewrite inject_Z_plus. change (inject_Z 1) with 1%Q. lra.
Qed.

Lemma round_half_even_le (y : Q) (k : Z) :
  (y <= inject_Z k)%Q -> (round_half_even y <= k)%Z.
Proof.
  intros H. unfold round_half_even.
  pose proof (Qfloor_le y) as H1.
  assert (Hf : (Qfloor y <= k)%Z) by (rewrite Zle_Qle; lra).
  destruct (Z.eq_dec (Qfloor y) k) as [Heq|Hne].
  - assert (Hy : (y - inject_Z (Qfloor y) <= 0)%Q) by (rewrite Heq; lra).
    destruct (y - inject_Z (Qfloor y) ?= 1 # 2)%Q eqn:E.
    + apply Qeq_alt in E. lra.
    + lia.
    + apply Qgt_alt in E. lra.
  - destruct (y - inject_Z (Qfloor y) ?= 1 # 2)%Q; [destruct (Z.even _)| |]; lia.
Qed.

Lemma round_half_even_nonneg (y : Q) : (0 <= y)%Q -> (0 <= round_half_even y)%Z.
Proof.
  intros H. unfold round_half_even.
  assert (Hf : (0 <= Qfloor y)%Z).
  { change 0%Z with (Qfloor 0). now apply Qfloor_resp_le. }
  destruct (y - inject_Z (Qfloor y) ?= 1 # 2)%Q; [destruct (Z.even _)| |]; lia.
Qed.

Lemma round_float_positive (x : Q) : (0 < x)%Q -> round_float x = round_positive x.
Proof. intros H. unfold round_float. apply Qgt_alt in H. now rewrite H. Qed.

Lemma round_float_zero (x : Q) : (x == 0)%Q -> round_float x = 0%Q.
Proof. intros H. unfold round_float. apply Qeq_alt in H. now rewrite H. Qed.

Lemma round_float_nonneg (x : Q) : (0 <= x)%Q -> (0 <= round_float x)%Q.
Proof.
  intros H. destruct (Qlt_le_dec 0 x) as [Hpos|Hle].
  - rewrite round_float_positive by assumption. unfold round_positive.
    set (e := Z.max (floor_log2 x) (-126)).
    pose proof (two_power_pos (e - 23)) as Hu.
    apply Qmult_le_0_compat; [|lra].
    rewrite <- (Zle_Qle 0). apply round_half_even_nonneg.
    apply Qle_shift_div_l; [assumption | lra].
  - rewrite round_float_zero; [lra|]. lra.
Qed.

(** The error of rounding a positive number is at most half an ulp. *)
Lemma round_positive_error (x : Q) :
  (0 < x)%Q ->
  let ulp := (2 ^ (Z.max (floor_log2 x) (-126) - 23))%Q in
  (x - ulp * (1 # 2) <= round_positive x)%Q /\ (round_positive x <= x + ulp * (1 # 2))%Q.
Proof.
  intros Hx ulp. unfold round_positive. fold ulp.
  assert (Hu : (0 < ulp)%Q) by apply two_power_pos.
  destruct (round_half_even_bounds (x / ulp)) as [H1 H2].
  set (m := inject_Z (round_half_even (x / ulp))) in *.
  assert (Hxy : (x / ulp * ulp == x)%Q) by (field; lra).
  split.
  - apply Qle_trans with ((x / ulp - (1 # 2)) * ulp)%Q.
    + rewrite <- Hxy at 1. lra.
    + apply Qmult_le_compat_r; lra.
  - apply Qle_trans with ((x / ulp + (1 # 2)) * ulp)%Q.
    + apply Qmult_le_compat_r; lra.
    + rewrite <- Hxy at 2. lra.
Qed.

Lemma round_float_lower (x : Q) :
  (1 <= x)%Q -> (x * (1 - (1 # 16777216)) <= round_float x)%Q.
Proof.
  intros Hx. rewrite round_float_positive by lra.
  destruct (round_positive_error x ltac:(lra)) as [H1 _]. cbv zeta in H1.
  pose proof (floor_log2_nonneg x Hx) as He.
  rewrite Z.max_l in H1 by lia.
  pose proof (floor_log2_le x ltac:(lra)) as Hle.
  replace (floor_log2 x - 23)%Z with (floor_log2 x + -23)%Z in H1 by lia.
  rewrite two_power_plus in H1.
  change (2 ^ (-23))%Q with (1 # 8388608)%Q in H1.
  set (p := (2 ^ floor_log2 x)%Q) in *.
  lra.
Qed.

Lemma round_float_le_2 (x : Q) : (0 <= x)%Q -> (x <= 2)%Q -> (round_float x <= 2)%Q.
Proof.
  intros H0 H2. destruct (Qlt_le_dec 0 x) as [Hpos|Hle];
    [|rewrite round_float_zero; [lra|lra]].
  rewrite round_float_positive by assumption. unfold round_positive.
  set (e := Z.max (floor_log2 x) (-126)).
  assert (He : (e <= 1)%Z).
  { subst e. apply Z.max_lub; [|lia].
    destruct (Z_le_gt_dec (floor_log2 x) 1) as [|Hgt]; [assumption|]. exfalso.
    pose proof (floor_log2_le x Hpos) as Hle.
    pose proof (two_power_le 2 (floor_log2 x) ltac:(lia)) as Hp.
    change (2 ^ 2)%Q with 4%Q in Hp. lra. }
  pose proof (two_power_pos (e - 23)) as Hu.
  assert (Hk : (2 == inject_Z (2 ^ (24 - e)) * 2 ^ (e - 23))%Q).
  { rewrite <- two_power_inject by lia. rewrite <- two_power_plus.
    replace (24 - e + (e - 23))%Z with 1%Z by lia. reflexivity. }
  apply Qle_trans with (inject_Z (2 ^ (24 - e)) * 2 ^ (e - 23))%Q;
    [|rewrite <- Hk; apply Qle_refl].
  apply Qmult_le_compat_r; [|lra].
  rewrite <- Zle_Qle. apply round_half_even_le.
  apply Qle_shift_div_r; [assumption|]. now rewrite <- Hk.
Qed.

Lemma round_float_near (x : Q) :
  (0 <= x)%Q -> (x <= 2)%Q ->
  (x - (1 # 8388608) <= round_float x)%Q /\ (round_float x <= x + (1 # 8388608))%Q.
Proof.
  intros H0 H2. destruct (Qlt_le_dec 0 x) as [Hpos|Hle];
    [|rewrite round_float_zero; [lra|lra]].
  rewrite round_float_positive by assumption.
  destruct (round_positive_error x Hpos) as [H1 H3]. cbv zeta in H1, H3.
  set (e := Z.max (floor_log2 x) (-126)) in *.
  assert (He : (e <= 1)%Z).
  { subst e. apply Z.max_lub; [|lia].
    destruct (Z_le_gt_dec (floor_log2 x) 1) as [|Hgt]; [assumption|]. exfalso.
    pose proof (floor_log2_le x Hpos) as Hle.
    pose proof (two_power_le 2 (floor_log2 x) ltac:(lia)) as Hp.
    change (2 ^ 2)%Q with 4%Q in Hp. lra. }
  pose proof (two_power_le (e - 23) (-22) ltac:(lia)) as Hp.
  change (2 ^ (-22))%Q with (1 # 4194304)%Q in Hp.
  set (u := (2 ^ (e - 23))%Q) in *. lra.
Qed.


Section Further.

Context {W : World}.

(** [bind_inv H as x Hx], as above. *)
Tactic Notation "bind_inv" hyp(H) "as" simple_intropattern(x) ident(Hx) :=
  apply bind_Returns in H; destruct H as (x & Hx & H).

(** ** The steps on the buffer *)

Lemma ids_differ_false (c w : SimpleWaypointPtr) :
  ids_differ c w = false -> geo_ids c = geo_ids w.
Proof.
  unfold ids_differ, geo_ids. rewrite !orb_false_iff, !negb_false_iff, !Z.eqb_eq.
  intros [[-> ->] ->]. reflexivity.
Qed.

Lemma ids_differ_same (c : SimpleWaypointPtr) : ids_differ c c = false.
Proof. unfold ids_differ. now rewrite !Z.eqb_refl. Qed.

(** X1. After the synchronization of two non-empty copies the fronts of the
    active and of the exposed buffer have the same road, section and lane
    identifiers, and a second synchronization changes nothing. *)
Theorem synchronize_fronts_agree
    (waypoint_buffer copy_waypoint_buffer : Buffer) (w c : SimpleWaypointPtr) :
  head waypoint_buffer = Some w -> head copy_waypoint_buffer = Some c ->
  (exists w', head (synchronize waypoint_buffer copy_waypoint_buffer) = Some w' /\
              geo_ids w' = geo_ids c) /\
  synchronize (synchronize waypoint_buffer copy_waypoint_buffer) copy_waypoint_buffer
    = synchronize waypoint_buffer copy_waypoint_buffer.
Proof.
  intros Hw Hc.
  destruct waypoint_buffer as [|w0 wb]; [discriminate|].
  destruct copy_waypoint_buffer as [|c0 cb]; [discriminate|].
  inversion Hw; inversion Hc; subst w0 c0. simpl.
  destruct (ids_differ c w) eqn:E; simpl.
  - rewrite ids_differ_same. split; [|reflexivity]. exists c. auto.
  - rewrite E. split; [|reflexivity]. exists w. split; [reflexivity|].
    symmetry. now apply ids_differ_false.
Qed.

Lemma purge_ahead (vehicle : Actor) (w : SimpleWaypointPtr) (rest : Buffer) :
  (0 < signed_deviation vehicle w)%Q -> purge vehicle (w :: rest) = w :: rest.
Proof.
  intros H. rewrite purge_cons. apply fle_false in H. now rewrite H.
Qed.

Lemma purge_front (vehicle : Actor) (waypoint_buffer : Buffer) :
  match purge vehicle waypoint_buffer with
  | [] => True
  | w :: _ => (0 < signed_deviation vehicle w)%Q
  end.
Proof.
  induction waypoint_buffer as [|w rest IH]; [exact I|].
  rewrite purge_cons. destruct (fle _ _) eqn:E; [assumption|].
  now apply fle_false.
Qed.

Lemma purge_suffix (vehicle : Actor) (waypoint_buffer : Buffer) :
  exists n, purge vehicle waypoint_buffer = drop n waypoint_buffer.
Proof.
  induction waypoint_buffer as [|w rest IH]; [now exists 0|].
  rewrite purge_cons. destruct (fle _ _).
  - destruct IH as [n Hn]. now exists (S n).
  - now exists 0.
Qed.

(** X2. Purging is idempotent, and it leaves a buffer as it is when the
    front of the buffer is ahead of the vehicle (signed deviation above
    0), whatever follows the front. *)
Theorem purge_idempotent (vehicle : Actor) (waypoint_buffer : Buffer) :
  purge vehicle (purge vehicle waypoint_buffer) = purge vehicle waypoint_buffer /\
  (forall w, head waypoint_buffer = Some w -> (0 < signed_deviation vehicle w)%Q ->
     purge vehicle waypoint_buffer = waypoint_buffer).
Proof.
  split.
  - pose proof (purge_front vehicle waypoint_buffer) as H.
    destruct (purge vehicle waypoint_buffer) as [|w rest]; [reflexivity|].
    now apply purge_ahead.
  - intros w Hw Hdev. destruct waypoint_buffer as [|w0 rest]; [discriminate|].
    inversion Hw; subst w0. now apply purge_ahead.
Qed.

(** X3. The buffer that synchronization, purge and initialization hand to
    the lane change is not empty, and its front is ahead of the vehicle
    (signed deviation above 0) and the buffer is what is left of the active
    or of the exposed copy after some pops from the front, unless nothing
    was left: then the buffer is the nearest waypoint of the map alone. *)
Theorem maintained_front
    (vehicle : Actor) (waypoint_buffer copy_waypoint_buffer : Buffer) :
  let maintained :=
    initialize (GetLocation vehicle)
      (purge vehicle (synchronize waypoint_buffer copy_waypoint_buffer)) in
  exists fr, head maintained = Some fr /\
    (((0 < signed_deviation vehicle fr)%Q /\
      exists n, maintained = drop n waypoint_buffer \/
                maintained = drop n copy_waypoint_buffer) \/
     (purge vehicle (synchronize waypoint_buffer copy_waypoint_buffer) = [] /\
      maintained = [GetWaypoint (GetLocation vehicle)])).
Proof.
  intros maintained. subst maintained.
  pose proof (purge_front vehicle (synchronize waypoint_buffer copy_waypoint_buffer)) as Hfr.
  destruct (purge_suffix vehicle (synchronize waypoint_buffer copy_waypoint_buffer))
    as [n Hn].
  destruct (purge vehicle (synchronize waypoint_buffer copy_waypoint_buffer))
    as [|fr rest] eqn:E; simpl.
  - exists (GetWaypoint (GetLocation vehicle)). split; [reflexivity|]. right. auto.
  - exists fr. split; [reflexivity|]. left. split; [assumption|].
    exists n. rewrite Hn. unfold synchronize.
    destruct waypoint_buffer as [|w wb]; [now left|].
    destruct copy_waypoint_buffer as [|c cb]; [now left|].
    destruct (ids_differ c w); [now right | now left].
Qed.

(** ** Populating *)

(** X4. A buffer that the populating loop has returned is settled: run on
    it again, with any random state, the loop returns it as it is. *)
Theorem populate_settled (fuel : nat) (horizon : float) (waypoint_buffer grown : Buffer)
    (rs rs' : RandState) :
  populate fuel horizon waypoint_buffer rs = Returns (grown, rs') ->
  forall fuel' rs'', populate (S fuel') horizon grown rs'' = Returns (grown, rs'').
Proof.
  intros Hrun fuel' rs''.
  destruct waypoint_buffer as [|fr b]; [destruct fuel; discriminate|].
  destruct (populate_Returns fuel horizon (fr :: b) rs fr grown rs' eq_refl Hrun)
    as (Hhead & (bk & Hbk & Hbeyond) & _).
  now apply (populate_beyond _ _ _ _ bk fr).
Qed.

Lemma select_index_single (next_waypoints : list SimpleWaypointPtr) (rs : RandState) :
  length next_waypoints <= 1 -> select_index next_waypoints rs = (0, rs).
Proof.
  intros H. unfold select_index.
  destruct (1 <? length next_waypoints) eqn:E; [|reflexivity].
  apply Nat.ltb_lt in E. lia.
Qed.

(** X5. On a map without forks (no waypoint has more than one successor)
    the populating loop does not call [rand]: it returns the random state
    it was given, and it returns the same buffer from any random state. *)
Theorem populate_without_forks (fuel : nat) (horizon : float) :
  (forall w, length (GetNextWaypoint w) <= 1) ->
  forall (waypoint_buffer grown : Buffer) (rs rs' : RandState),
  populate fuel horizon waypoint_buffer rs = Returns (grown, rs') ->
  rs' = rs /\
  forall rs2, populate fuel horizon waypoint_buffer rs2 = Returns (grown, rs2).
Proof.
  intros Hsingle. induction fuel as [|fuel IH]; intros b grown rs rs' Hrun; [discriminate|].
  simpl in Hrun |- *.
  destruct (deque_back b) as [bk| | |]; try discriminate. simpl in Hrun |- *.
  destruct (deque_front b) as [fr| | |]; try discriminate. simpl in Hrun |- *.
  destruct (fle (DistanceSquared bk fr) (pow2 horizon)).
  - rewrite (select_index_single _ rs (Hsingle bk)) in Hrun.
    destruct (vector_at (GetNextWaypoint bk) 0) as [nxt| | |] eqn:Hat; try discriminate.
    simpl in Hrun. destruct (IH _ _ _ _ Hrun) as [-> Hany].
    split; [reflexivity|]. intros rs2.
    rewrite (select_index_single _ rs2 (Hsingle bk)), Hat. simpl. apply Hany.
  - inversion Hrun; subst. split; [reflexivity|]. intros rs2. reflexivity.
Qed.

(** ** Generating output *)

(** X6. When the raw cosine to the target is between -1 and 1, the
    deviation written to the planner frame is between -2 and 2.  It is the
    float nearest to 1 - cosine when the cross product is not negative, and
    the negation of that float when it is negative, so that its sign is that
    of the cross product; it is within 2^-23 of 1 - cosine, respectively of
    cosine - 1, and it is 0 when the cosine is 1. *)
Theorem output_deviation_range (vehicle : Actor) (target_location : Location) :
  let cosine := DeviationDotProduct vehicle target_location in
  let cross := DeviationCrossProduct vehicle target_location in
  let out := output_deviation vehicle target_location in
  (-1 <= cosine)%Q -> (cosine <= 1)%Q ->
  (-2 <= out)%Q /\ (out <= 2)%Q /\
  ((0 <= cross)%Q ->
     (out == round_float (1 - cosine))%Q /\ (0 <= out)%Q /\
     (1 - cosine - (1 # 8388608) <= out)%Q /\ (out <= 1 - cosine + (1 # 8388608))%Q) /\
  ((cross < 0)%Q ->
     (out == - round_float (1 - cosine))%Q /\ (out <= 0)%Q /\
     (cosine - 1 - (1 # 8388608) <= out)%Q /\ (out <= cosine - 1 + (1 # 8388608))%Q) /\
  ((cosine == 1)%Q -> (out == 0)%Q).
Proof.
  intros cosine cross out Hlo Hhi. subst out. unfold output_deviation.
  fold cosine. fold cross.
  pose proof (round_float_nonneg (1 - cosine) ltac:(lra)) as H0.
  pose proof (round_float_le_2 (1 - cosine) ltac:(lra) ltac:(lra)) as H2.
  destruct (round_float_near (1 - cosine) ltac:(lra) ltac:(lra)) as [Hn1 Hn2].
  assert (Hz : (cosine == 1)%Q -> round_float (1 - cosine) = 0%Q).
  { intros Hc. apply round_float_zero. lra. }
  set (r := round_float (1 - cosine)) in *.
  destruct (flt cross 0%Q) eqn:E.
  - apply flt_true in E.
    split; [lra|]. split; [lra|]. split; [intros; lra|].
    split; [intros; repeat split; lra|].
    intros Hc. rewrite (Hz Hc). reflexivity.
  - apply flt_false in E.
    split; [lra|]. split; [lra|]. split; [intros; repeat split; lra|].
    split; [intros; lra|].
    intros Hc. rewrite (Hz Hc). reflexivity.
Qed.

(** The three distances of a round. *)
Lemma distances_ordered (vehicle_velocity : float) :
  (0 <= target_point_distance vehicle_velocity)%Q /\
  (target_point_distance vehicle_velocity <= look_ahead_distance vehicle_velocity)%Q /\
  (look_ahead_distance vehicle_velocity <= horizon_size vehicle_velocity)%Q.
Proof.
  unfold target_point_distance, look_ahead_distance, horizon_size, std_ceil,
    TARGET_WAYPOINT_TIME_HORIZON, TARGET_WAYPOINT_HORIZON_LENGTH,
    MINIMUM_JUNCTION_LOOK_AHEAD, WAYPOINT_TIME_HORIZON, MINIMUM_HORIZON_LENGTH.
  pose proof (Qceiling_lt (vehicle_velocity * (1 # 2))) as Hc.
  replace (Qceiling (vehicle_velocity * (1 # 2)) - 1)%Z
    with (Qceiling (vehicle_velocity * (1 # 2)) + (- 1))%Z in Hc by lia.
  rewrite inject_Z_plus in Hc.
  change (inject_Z (-1)) with (-1)%Q in Hc.
  set (c := inject_Z (Qceiling (vehicle_velocity * (1 # 2)))) in *.
  destruct (std_max_cases c 2%Q) as (Ht1 & Ht2 & Ht).
  destruct (std_max_cases (2 * vehicle_velocity)%Q 3%Q) as (Hl1 & Hl2 & Hl).
  destruct (std_max_cases (round_float (3 * vehicle_velocity)) 25%Q) as (Hh1 & Hh2 & Hh).
  split; [lra|]. split.
  - destruct Ht as [-> | ->]; [|lra]. lra.
  - destruct Hl as [-> | ->]; [|lra].
    destruct (Qlt_le_dec 25 (2 * vehicle_velocity)) as [Hfast|Hslow]; [|lra].
    pose proof (round_float_lower (3 * vehicle_velocity) ltac:(lra)) as Hr.
    set (r := round_float (3 * vehicle_velocity)) in *. lra.
Qed.

Lemma pow2_le (a b : float) : (0 <= a)%Q -> (a <= b)%Q -> (pow2 a <= pow2 b)%Q.
Proof.
  intros Ha Hab. unfold pow2. apply Qmult_le_compat_nonneg; split; assumption.
Qed.

(** The walk to the look-ahead point, as the walk to the target: from the
    entry at index [idx] it ends at the first entry that is not within the
    distance, or at the last entry of the buffer. *)
Lemma look_ahead_loop_first (waypoint_buffer : Buffer) (distance : float)
    (fr : SimpleWaypointPtr) :
  head waypoint_buffer = Some fr ->
  forall (bound i idx : nat) (point : SimpleWaypointPtr),
  waypoint_buffer !! idx = Some point -> idx = pred i -> i <= length waypoint_buffer ->
  length waypoint_buffer - i < bound ->
  exists p k,
    look_ahead_loop bound waypoint_buffer distance i point idx = Returns (p, k) /\
    waypoint_buffer !! k = Some p /\ idx <= k /\
    (forall j w, idx <= j < k -> waypoint_buffer !! j = Some w ->
       (DistanceSquared fr w < pow2 distance)%Q) /\
    ((pow2 distance <= DistanceSquared fr p)%Q \/ S k = length waypoint_buffer).
Proof.
  intros Hfr. apply deque_front_Returns in Hfr.
  induction bound as [|bound IH]; intros i idx point Hidx Hci Hi Hbound; [lia|].
  pose proof (lookup_lt_Some _ _ _ Hidx) as Hlt.
  simpl. rewrite Hfr, Returns_bind.
  destruct (flt (DistanceSquared fr point) (pow2 distance)) eqn:Ed; simpl.
  - destruct (i <? length waypoint_buffer) eqn:Ei.
    + apply Nat.ltb_lt in Ei.
      destruct (vector_at_lt _ _ Ei) as (p1 & Hp1 & Hl1). rewrite Hp1, Returns_bind.
      destruct (IH (S i) i p1 Hl1 eq_refl ltac:(lia) ltac:(lia))
        as (p & k & Hrun & Hk & Hik & Hbefore & Hstop).
      exists p, k. split; [assumption|]. split; [assumption|]. split; [lia|].
      split; [|assumption].
      intros j w Hj Hw. destruct (decide (i <= j)) as [Hij|Hij].
      * apply (Hbefore j w); [lia | assumption].
      * assert (j = idx) by lia. subst j. rewrite Hidx in Hw. inversion Hw; subst w.
        now apply flt_true.
    + apply Nat.ltb_ge in Ei.
      exists point, idx. split; [reflexivity|]. split; [assumption|]. split; [lia|].
      split; [intros j w Hj; lia|]. right. lia.
  - exists point, idx. split; [reflexivity|]. split; [assumption|]. split; [lia|].
    split; [intros j w Hj; lia|]. left. now apply flt_false.
Qed.


(** X8. The steering target is never beyond the look-ahead point: it is
    the entry of the buffer at some index that is at most
    [look_ahead_index]. *)
Theorem target_not_beyond_look_ahead
    (vehicle_velocity : float) (waypoint_buffer : Buffer)
    (target look_ahead_point : SimpleWaypointPtr) (look_ahead_index : nat) :
  select_target vehicle_velocity waypoint_buffer = Returns target ->
  look_ahead vehicle_velocity waypoint_buffer
    = Returns (look_ahead_point, look_ahead_index) ->
  exists k, waypoint_buffer !! k = Some target /\ k <= look_ahead_index.
Proof.
  intros Ht Hl.
  destruct waypoint_buffer as [|fr rest] eqn:Eb; [discriminate Ht|]. rewrite <- Eb in *.
  assert (Hfr : head waypoint_buffer = Some fr) by now rewrite Eb.
  destruct (select_target_Returns vehicle_velocity waypoint_buffer fr Hfr)
    as (kt & t & Hrun & Hkt & Hwithin & Hstop).
  rewrite Ht in Hrun. inversion Hrun; subst t. clear Hrun.
  unfold look_ahead in Hl.
  rewrite (proj2 (deque_front_Returns _ _) Hfr), Returns_bind in Hl.
  assert (H0 : waypoint_buffer !! 0 = Some fr) by now rewrite Eb.
  destruct (look_ahead_loop_first waypoint_buffer (look_ahead_distance vehicle_velocity)
              fr Hfr (S (length waypoint_buffer)) 0 0 fr H0 eq_refl ltac:(lia) ltac:(lia))
    as (p & kl & Hrun & Hkl & _ & _ & Hlstop).
  rewrite Hl in Hrun. inversion Hrun; subst p kl. clear Hrun.
  exists kt. split; [assumption|].
  destruct (le_lt_dec kt look_ahead_index) as [|Hlt]; [assumption|]. exfalso.
  pose proof (lookup_lt_Some _ _ _ Hkt) as Hktlt.
  destruct Hlstop as [Hbeyond | Hlast]; [|lia].
  specialize (Hwithin look_ahead_index look_ahead_point Hlt Hkl).
  destruct (distances_ordered vehicle_velocity) as (H0' & Hle & _).
  pose proof (pow2_le _ _ H0' Hle) as Hsq.
  lra.
Qed.

(** ** DrawBuffer *)

Lemma DrawBuffer_loop_Returns (waypoint_buffer : Buffer) :
  forall (bound i : nat) (drawn : list DrawPoint),
  i <= 5 -> 5 - i < bound ->
  DrawBuffer_loop bound waypoint_buffer i drawn
    = Returns (drawn ++ (red_point <$> take (5 - i) (drop i waypoint_buffer))).
Proof.
  induction bound as [|bound IH]; intros i drawn Hi Hbound; [lia|].
  simpl. destruct (i <? length waypoint_buffer) eqn:Ei; simpl.
  - apply Nat.ltb_lt in Ei. destruct (i <? 5) eqn:E5.
    + apply Nat.ltb_lt in E5.
      destruct (vector_at_lt _ _ Ei) as (w & Hw & Hl). rewrite Hw, Returns_bind.
      rewrite IH by lia. rewrite (drop_S _ _ _ Hl).
      replace (5 - i) with (S (5 - S i)) by lia. simpl.
      now rewrite <- app_assoc.
    + apply Nat.ltb_ge in E5. replace (5 - i) with 0 by lia.
      simpl. now rewrite app_nil_r.
  - apply Nat.ltb_ge in Ei. rewrite drop_ge by assumption.
    rewrite take_nil. simpl. now rewrite app_nil_r.
Qed.

(** X9. [DrawBuffer] never fails: it draws the first five entries of the
    buffer, or all of them when there are fewer, in their order, each as a
    red point at the location of the entry, after what was drawn before. *)
Theorem DrawBuffer_draws_first_five (waypoint_buffer : Buffer) (drawn : list DrawPoint) :
  DrawBuffer waypoint_buffer drawn
    = Returns (drawn ++ (red_point <$> take 5 waypoint_buffer)) /\
  length (red_point <$> take 5 waypoint_buffer) = Nat.min 5 (length waypoint_buffer) /\
  forall i w, i < 5 -> waypoint_buffer !! i = Some w ->
    (red_point <$> take 5 waypoint_buffer) !! i = Some (red_point w) /\
    draw_location (red_point w) = WaypointLocation w.
Proof.
  split; [|split].
  - unfold DrawBuffer. rewrite DrawBuffer_loop_Returns by lia. reflexivity.
  - now rewrite length_fmap, length_take.
  - intros i w Hi Hw. split; [|reflexivity].
    rewrite list_lookup_fmap, lookup_take_lt by assumption. now rewrite Hw.
Qed.

(** ** What Action writes *)

Lemma assign_lane_change_state (vehicle : Actor) (waypoint_buffer changed : Buffer)
    (st st' : LocalizationStage) :
  assign_lane_change vehicle waypoint_buffer st = Returns (changed, st') ->
  exists td, st' = with_traffic_distributor st td.
Proof.
  unfold assign_lane_change. intros H.
  bind_inv H as fr Hfr.
  destruct (negb (CheckJunction fr)).
  - destruct (AssignLaneChange _ _ _ _ _ _ _) as [change td].
    inversion H; subst. eexists. reflexivity.
  - inversion H; subst. eexists. reflexivity.
Qed.

Lemma edit_frames_Returns (st st' : LocalizationStage) (i : nat) (vehicle : Actor)
    (dot_product : float) (approaching_junction : bool)
    (waypoint_buffer : Buffer) (look_ahead_index : nat) :
  edit_frames st i vehicle dot_product approaching_junction waypoint_buffer look_ahead_index
    = Returns st' ->
  i < length (current_planner_frame st) /\
  i < length (current_collision_frame st) /\
  i < length (current_traffic_light_frame st) /\
  exists fr la,
    head waypoint_buffer = Some fr /\ waypoint_buffer !! look_ahead_index = Some la /\
    st' = with_frames st
      (select_frame (planner_frame_selector st)
         (<[i := {| planner_actor := Some vehicle;
                    deviation := dot_product;
                    approaching_true_junction := approaching_junction |}]>
            (current_planner_frame st))
         (planner_frame_a st))
      (select_frame (planner_frame_selector st)
         (planner_frame_b st)
         (<[i := {| planner_actor := Some vehicle;
                    deviation := dot_product;
                    approaching_true_junction := approaching_junction |}]>
            (current_planner_frame st)))
      (select_frame (collision_frame_selector st)
         (<[i := {| collision_actor := Some vehicle;
                    buffer := Some {| in_list_a := collision_frame_selector st;
                                      slot := i |} |}]>
            (current_collision_frame st))
         (collision_frame_a st))
      (select_frame (collision_frame_selector st)
         (collision_frame_b st)
         (<[i := {| collision_actor := Some vehicle;
                    buffer := Some {| in_list_a := collision_frame_selector st;
                                      slot := i |} |}]>
            (current_collision_frame st)))
      (select_frame (traffic_light_frame_selector st)
         (<[i := {| traffic_light_actor := Some vehicle;
                    closest_waypoint := Some fr;
                    junction_look_ahead_waypoint := Some la |}]>
            (current_traffic_light_frame st))
         (traffic_light_frame_a st))
      (select_frame (traffic_light_frame_selector st)
         (traffic_light_frame_b st)
         (<[i := {| traffic_light_actor := Some vehicle;
                    closest_waypoint := Some fr;
                    junction_look_ahead_waypoint := Some la |}]>
            (current_traffic_light_frame st))).
Proof.
  unfold edit_frames. intros H.
  bind_inv H as pe Hp. bind_inv H as ce Hc. bind_inv H as te Ht.
  bind_inv H as fr Hfr. bind_inv H as la Hla.
  apply vector_at_Returns in Hp, Hc, Ht, Hla. apply deque_front_Returns in Hfr.
  split; [eapply lookup_lt_Some; exact Hp|].
  split; [eapply lookup_lt_Some; exact Hc|].
  split; [eapply lookup_lt_Some; exact Ht|].
  exists fr, la. split; [assumption|]. split; [assumption|].
  inversion H. reflexivity.
Qed.

(** The steps of a finished round, one by one. *)
Lemma Action_vehicle_steps (fuel i : nat) (st st' : LocalizationStage) (rs rs' : RandState) :
  Action_vehicle fuel i st rs = Returns (st', rs') ->
  exists vehicle wb cb changed td grown target look_ahead_point look_ahead_index approaching,
    actor_list st !! i = Some vehicle /\
    current_buffer_list st !! i = Some wb /\
    copy_buffer_list st !! i = Some cb /\
    populate fuel (horizon_size (GetVelocityLength vehicle)) changed rs
      = Returns (grown, rs') /\
    select_target (GetVelocityLength vehicle) grown = Returns target /\
    look_ahead (GetVelocityLength vehicle) grown
      = Returns (look_ahead_point, look_ahead_index) /\
    edit_frames
      (store_waypoint_buffer
         (with_traffic_distributor
            (store_waypoint_buffer st i
               (initialize (GetLocation vehicle) (purge vehicle (synchronize wb cb))))
            td)
         i grown)
      i vehicle (output_deviation vehicle (WaypointLocation target)) approaching
      grown look_ahead_index = Returns st'.
Proof.
  unfold Action_vehicle. intros H.
  bind_inv H as vehicle Hv. bind_inv H as wb Hwb. bind_inv H as cb Hcb.
  bind_inv H as [changed st1] Hlane. bind_inv H as [grown rs1] Hgrow.
  bind_inv H as target Htarget. bind_inv H as [p idx] Hla.
  bind_inv H as approaching Hjf. bind_inv H as st2 Hedit.
  inversion H; subst st2 rs1. clear H.
  apply vector_at_Returns in Hv, Hwb, Hcb.
  destruct (assign_lane_change_state _ _ _ _ _ Hlane) as [td ->].
  exists vehicle, wb, cb, changed, td, grown, target, p, idx, approaching.
  repeat (split; [assumption|]). assumption.
Qed.

Lemma Action_vehicle_untouched (fuel i : nat) (st st' : LocalizationStage)
    (rs rs' : RandState) :
  Action_vehicle fuel i st rs = Returns (st', rs') ->
  untouched_outside (fun j => j = i) st st'.
Proof.
  intros H.
  destruct (Action_vehicle_steps _ _ _ _ _ _ H)
    as (vehicle & wb & cb & changed & td & grown & target & p & idx & approaching &
        _ & _ & _ & _ & _ & _ & Hedit).
  destruct (edit_frames_Returns _ _ _ _ _ _ _ _ Hedit)
    as (_ & _ & _ & fr & la & _ & _ & ->).
  clear. destruct st as [ps cs ts bla blb pfa pfb cfa cfb tfa tfb pms cms tms al ix td0].
  destruct ps, cs, ts; constructor; simpl;
    unfold current_buffer_list, copy_buffer_list, select_buffer_list,
      current_planner_frame, current_collision_frame, current_traffic_light_frame,
      other_planner_frame, other_collision_frame, other_traffic_light_frame,
      select_frame; simpl;
    rewrite ?length_insert; try reflexivity;
    intros j Hj; rewrite ?list_lookup_insert_ne by congruence; reflexivity.
Qed.

Lemma untouched_outside_refl (touched : nat -> Prop) (st : LocalizationStage) :
  untouched_outside touched st st.
Proof. constructor; reflexivity. Qed.

Lemma untouched_outside_trans (P Q R : nat -> Prop) (st st1 st2 : LocalizationStage) :
  (forall j, P j -> R j) -> (forall j, Q j -> R j) ->
  untouched_outside P st st1 -> untouched_outside Q st1 st2 ->
  untouched_outside R st st2.
Proof.
  intros HP HQ H1 H2. constructor.
  - now rewrite (same_planner_selector _ _ _ H2), (same_planner_selector _ _ _ H1).
  - now rewrite (same_collision_selector _ _ _ H2), (same_collision_selector _ _ _ H1).
  - now rewrite (same_traffic_light_selector _ _ _ H2), (same_traffic_light_selector _ _ _ H1).
  - now rewrite (same_planner_state _ _ _ H2), (same_planner_state _ _ _ H1).
  - now rewrite (same_collision_state _ _ _ H2), (same_collision_state _ _ _ H1).
  - now rewrite (same_traffic_light_state _ _ _ H2), (same_traffic_light_state _ _ _ H1).
  - now rewrite (same_actor_list _ _ _ H2), (same_actor_list _ _ _ H1).
  - now rewrite (same_index _ _ _ H2), (same_index _ _ _ H1).
  - now rewrite (same_copy_buffer_list _ _ _ H2), (same_copy_buffer_list _ _ _ H1).
  - now rewrite (same_other_planner_frame _ _ _ H2), (same_other_planner_frame _ _ _ H1).
  - now rewrite (same_other_collision_frame _ _ _ H2), (same_other_collision_frame _ _ _ H1).
  - now rewrite (same_other_traffic_light_frame _ _ _ H2), (same_other_traffic_light_frame _ _ _ H1).
  - now rewrite (same_buffer_count _ _ _ H2), (same_buffer_count _ _ _ H1).
  - now rewrite (same_planner_size _ _ _ H2), (same_planner_size _ _ _ H1).
  - now rewrite (same_collision_size _ _ _ H2), (same_collision_size _ _ _ H1).
  - now rewrite (same_traffic_light_size _ _ _ H2), (same_traffic_light_size _ _ _ H1).
  - intros j Hj. rewrite (same_buffer_outside _ _ _ H2), (same_buffer_outside _ _ _ H1); auto.
  - intros j Hj. rewrite (same_planner_outside _ _ _ H2), (same_planner_outside _ _ _ H1); auto.
  - intros j Hj. rewrite (same_collision_outside _ _ _ H2), (same_collision_outside _ _ _ H1); auto.
  - intros j Hj.
    rewrite (same_traffic_light_outside _ _ _ H2), (same_traffic_light_outside _ _ _ H1); auto.
Qed.

Lemma in_bounds_untouched (touched : nat -> Prop) (i : nat) (st st' : LocalizationStage) :
  untouched_outside touched st st' -> in_bounds i st' <-> in_bounds i st.
Proof.
  intros H. unfold in_bounds.
  rewrite (same_actor_list _ _ _ H), (same_copy_buffer_list _ _ _ H), (same_buffer_count _ _ _ H),
    (same_planner_size _ _ _ H), (same_collision_size _ _ _ H), (same_traffic_light_size _ _ _ H).
  reflexivity.
Qed.

Lemma emitted_untouched (touched : nat -> Prop) (i : nat) (st st' : LocalizationStage) :
  ~ touched i -> untouched_outside touched st st' -> emitted i st -> emitted i st'.
Proof.
  intros Hi H (vehicle & b & fr & bk & target & la & Hv & Hb & Hrest).
  exists vehicle, b, fr, bk, target, la.
  rewrite (same_actor_list _ _ _ H), (same_collision_selector _ _ _ H),
    (same_buffer_outside _ _ _ H i Hi), (same_planner_outside _ _ _ H i Hi),
    (same_collision_outside _ _ _ H i Hi), (same_traffic_light_outside _ _ _ H i Hi).
  auto.
Qed.

Lemma Action_vehicle_in_bounds (fuel i : nat) (st st' : LocalizationStage)
    (rs rs' : RandState) :
  Action_vehicle fuel i st rs = Returns (st', rs') -> in_bounds i st.
Proof.
  intros H.
  destruct (Action_vehicle_steps _ _ _ _ _ _ H)
    as (vehicle & wb & cb & changed & td & grown & target & p & idx & approaching &
        Hv & Hwb & Hcb & _ & _ & _ & Hedit).
  destruct (edit_frames_Returns _ _ _ _ _ _ _ _ Hedit) as (Hp & Hc & Ht & _).
  apply lookup_lt_Some in Hv, Hwb, Hcb.
  unfold in_bounds. split; [assumption|]. split; [assumption|]. split; [assumption|].
  clear - Hp Hc Ht.
  destruct st as [ps cs ts bla blb pfa pfb cfa cfb tfa tfb pms cms tms al ix td0].
  unfold current_planner_frame, current_collision_frame, current_traffic_light_frame,
    store_waypoint_buffer in *.
  destruct ps, cs, ts; simpl in *; auto.
Qed.

Lemma Action_vehicle_emitted (fuel i : nat) (st st' : LocalizationStage)
    (rs rs' : RandState) :
  Action_vehicle fuel i st rs = Returns (st', rs') -> emitted i st'.
Proof.
  intros H.
  pose proof (Action_vehicle_untouched _ _ _ _ _ _ H) as Hun.
  pose proof (Action_vehicle_in_bounds _ _ _ _ _ _ H) as (_ & Hbl & _ & Hpl & Hcl & Htl).
  destruct (Action_vehicle_steps _ _ _ _ _ _ H)
    as (vehicle & wb & cb & changed & td & grown & target & p & idx & approaching &
        Hv & Hwb & Hcb & Hgrow & Htarget & Hla & Hedit).
  destruct (edit_frames_Returns _ _ _ _ _ _ _ _ Hedit)
    as (_ & _ & _ & fr & la & Hfr & Hidx & Hst').
  destruct changed as [|fr0 rest]; [destruct fuel; discriminate Hgrow|].
  destruct (populate_Returns fuel _ (fr0 :: rest) rs fr0 grown rs' eq_refl Hgrow)
    as (Hhead & (bk & Hbk & Hbeyond) & _).
  rewrite Hfr in Hhead. inversion Hhead; subst fr0. clear Hhead.
  destruct (look_ahead_Returns (GetVelocityLength vehicle) grown fr Hfr)
    as (p' & k' & Hla' & Hk').
  rewrite Hla in Hla'. inversion Hla'; subst p' k'. clear Hla'.
  rewrite Hidx in Hk'. inversion Hk'; subst la. clear Hk'.
  destruct (select_target_Returns (GetVelocityLength vehicle) grown fr Hfr)
    as (kt & t & Ht & Hkt & _).
  rewrite Htarget in Ht. inversion Ht; subst t. clear Ht.
  exists vehicle, grown, fr, bk, target, p.
  rewrite (same_actor_list _ _ _ Hun), (same_collision_selector _ _ _ Hun).
  split; [assumption|].
  assert (Hfields :
    current_buffer_list st' !! i = Some grown /\
    current_planner_frame st' !! i =
      Some {| planner_actor := Some vehicle;
              deviation := output_deviation vehicle (WaypointLocation target);
              approaching_true_junction := approaching |} /\
    current_collision_frame st' !! i =
      Some {| collision_actor := Some vehicle;
              buffer := Some {| in_list_a := collision_frame_selector st; slot := i |} |} /\
    current_traffic_light_frame st' !! i =
      Some {| traffic_light_actor := Some vehicle;
              closest_waypoint := Some fr;
              junction_look_ahead_waypoint := Some p |}).
  { subst st'. clear - Hbl Hpl Hcl Htl.
    destruct st as [ps cs ts bla blb pfa pfb cfa cfb tfa tfb pms cms tms al ix td0].
    unfold current_buffer_list, select_buffer_list, current_planner_frame,
      current_collision_frame, current_traffic_light_frame, store_waypoint_buffer,
      select_frame in *.
    destruct ps, cs, ts; simpl in *;
      repeat split; apply list_lookup_insert_eq; rewrite ?length_insert; assumption. }
  destruct Hfields as (Hb & Hp & Hc & Ht).
  split; [assumption|]. split; [assumption|]. split; [assumption|].
  split; [assumption|].
  split; [eapply list_elem_of_lookup_2; eassumption|].
  split; [eapply list_elem_of_lookup_2; eassumption|].
  split; [eexists; split; [exact Hp|]; split; reflexivity|].
  split; assumption.
Qed.

Lemma Action_loop_post (fuel rounds : nat) :
  forall (i : nat) (st st' : LocalizationStage) (rs rs' : RandState),
  Action_loop fuel rounds i st rs = Returns (st', rs') ->
  untouched_outside (fun j => i <= j < i + rounds) st st' /\
  forall j, i <= j < i + rounds -> emitted j st' /\ in_bounds j st.
Proof.
  induction rounds as [|rounds IH]; intros i st st' rs rs' H.
  - inversion H; subst. split; [apply untouched_outside_refl|]. intros j Hj. lia.
  - simpl in H. bind_inv H as [st1 rs1] Hone.
    pose proof (Action_vehicle_untouched _ _ _ _ _ _ Hone) as Hun1.
    destruct (IH _ _ _ _ _ H) as (Hun & Heach).
    split.
    + eapply untouched_outside_trans; [| |exact Hun1|exact Hun]; simpl; intros j Hj; lia.
    + intros j Hj. destruct (decide (j = i)) as [->|Hne].
      * split; [|eapply Action_vehicle_in_bounds; eassumption].
        eapply (emitted_untouched _ i st1 st'); [|exact Hun|].
        -- simpl. lia.
        -- eapply Action_vehicle_emitted; eassumption.
      * destruct (Heach j ltac:(lia)) as (He & Hb). split; [assumption|].
        now apply (in_bounds_untouched _ j st st1 Hun1).
Qed.

(** X10. [Action] on the vehicles from [start_index] to [end_index] writes
    nothing but the buffers of these vehicles in the current buffer list,
    their entries in the three current frames and the traffic distributor:
    the selectors, the recorded messenger states, the actor list, the index
    map, the other buffer list, the other frame of each pair, the sizes of
    all containers and every entry at an index outside the range are as
    before. *)
Theorem Action_touches_only_its_range
    (fuel start_index end_index : nat) (st st' : LocalizationStage) (rs rs' : RandState) :
  Action fuel start_index end_index st rs = Returns (st', rs') ->
  untouched_outside (fun j => start_index <= j <= end_index) st st'.
Proof.
  intros H. unfold Action in H.
  destruct (Action_loop_post _ _ _ _ _ _ _ H) as (Hun & _).
  eapply untouched_outside_trans;
    [| |apply (untouched_outside_refl (fun _ => False))|exact Hun]; simpl; intros j Hj; lia.
Qed.

(** X11. When [Action] returns, every vehicle of the range has its buffer
    and its three frame entries written: the buffer starts at the closest
    waypoint of the traffic light entry and ends beyond the horizon of the
    vehicle; the planner entry carries the vehicle and the deviation to a
    target taken from the buffer; the collision entry carries the vehicle
    and a reference to its buffer in the current buffer list; the traffic
    light entry carries the vehicle, the front of the buffer and a
    look-ahead waypoint taken from the buffer. *)
Theorem Action_emits
    (fuel start_index end_index : nat) (st st' : LocalizationStage) (rs rs' : RandState) :
  Action fuel start_index end_index st rs = Returns (st', rs') ->
  forall i, start_index <= i <= end_index -> emitted i st'.
Proof.
  intros H i Hi. unfold Action in H.
  destruct (Action_loop_post _ _ _ _ _ _ _ H) as (_ & Heach).
  apply Heach. lia.
Qed.

Lemma Action_loop_fails (fuel rounds i : nat) (st : LocalizationStage) (rs : RandState) :
  Action_vehicle fuel i st rs = OutOfRange ->
  Action_loop fuel (S rounds) i st rs = OutOfRange.
Proof. intros H. simpl. now rewrite H. Qed.

Lemma vector_at_cases {A} (v : list A) (i : nat) :
  vector_at v i = OutOfRange \/ exists x, i < length v /\ vector_at v i = Returns x.
Proof.
  unfold vector_at. destruct (v !! i) as [x|] eqn:E; [right | now left].
  exists x. split; [eapply lookup_lt_Some; eassumption | reflexivity].
Qed.

(** X12. [Action] returns only when every index of the range is within the
    actor list, within both buffer lists and within the three current
    frames.  At an index beyond the actor list or beyond one of the buffer
    lists the round fails with [OutOfRange] before anything is written, and
    [Action] from that index on fails with it. *)
Theorem Action_needs_bounds
    (fuel start_index end_index : nat) (st : LocalizationStage) (rs : RandState) :
  (forall st' rs', Action fuel start_index end_index st rs = Returns (st', rs') ->
     forall i, start_index <= i <= end_index -> in_bounds i st) /\
  (start_index <= end_index ->
   length (actor_list st) <= start_index \/
   length (current_buffer_list st) <= start_index \/
   length (copy_buffer_list st) <= start_index ->
   Action_vehicle fuel start_index st rs = OutOfRange /\
   Action fuel start_index end_index st rs = OutOfRange).
Proof.
  split.
  - intros st' rs' H i Hi. unfold Action in H.
    destruct (Action_loop_post _ _ _ _ _ _ _ H) as (_ & Heach).
    apply Heach. lia.
  - intros Hle Hout.
    assert (Hone : Action_vehicle fuel start_index st rs = OutOfRange).
    { unfold Action_vehicle.
      destruct (vector_at_cases (actor_list st) start_index) as [-> | (vehicle & Hv & Ev)];
        [reflexivity|]. rewrite Ev, Returns_bind.
      destruct (vector_at_cases (current_buffer_list st) start_index)
        as [-> | (wb & Hwb & Ewb)]; [reflexivity|]. rewrite Ewb, Returns_bind.
      destruct (vector_at_cases (copy_buffer_list st) start_index)
        as [-> | (cb & Hcb & Ecb)]; [reflexivity|]. lia. }
    split; [assumption|]. unfold Action.
    replace (S end_index - start_index) with (S (end_index - start_index)) by lia.
    now apply Action_loop_fails.
Qed.

Lemma assign_lane_change_total (vehicle : Actor) (waypoint_buffer : Buffer)
    (fr : SimpleWaypointPtr) (st : LocalizationStage) :
  head waypoint_buffer = Some fr ->
  exists changed td,
    assign_lane_change vehicle waypoint_buffer st
      = Returns (changed, with_traffic_distributor st td) /\
    changed <> [].
Proof.
  intros Hfr. unfold assign_lane_change.
  rewrite (proj2 (deque_front_Returns _ _) Hfr), Returns_bind.
  destruct (negb (CheckJunction fr)).
  - destruct (AssignLaneChange _ _ _ _ _ _ _) as [[p|] td]; simpl.
    + eexists _, _. split; [reflexivity | discriminate].
    + eexists _, _. split; [reflexivity|]. intros ->. discriminate.
  - eexists _, _. split; [reflexivity|]. intros ->. discriminate.
Qed.

Lemma junction_filter_total (speed_limit : float) (waypoint_buffer : Buffer)
    (fr p : SimpleWaypointPtr) (look_ahead_index : nat) :
  head waypoint_buffer = Some fr -> look_ahead_index <= length waypoint_buffer ->
  exists b, junction_filter speed_limit waypoint_buffer p look_ahead_index = Returns b.
Proof.
  intros Hfr Hle. unfold junction_filter.
  destruct (CheckJunction p); [|eexists; reflexivity].
  rewrite (proj2 (deque_front_Returns _ _) Hfr), Returns_bind.
  destruct (negb (CheckJunction fr)); [|eexists; reflexivity].
  destruct (flt HIGHWAY_SPEED speed_limit); [|eexists; reflexivity].
  destruct (branch_loop_Returns waypoint_buffer look_ahead_index Hle
              (S look_ahead_index) 0 false ltac:(lia)) as (b & Hb & _).
  eauto.
Qed.

Lemma edit_frames_total (st : LocalizationStage) (i : nat) (vehicle : Actor)
    (dot_product : float) (approaching_junction : bool)
    (waypoint_buffer : Buffer) (look_ahead_index : nat) (fr la : SimpleWaypointPtr) :
  i < length (current_planner_frame st) ->
  i < length (current_collision_frame st) ->
  i < length (current_traffic_light_frame st) ->
  head waypoint_buffer = Some fr -> waypoint_buffer !! look_ahead_index = Some la ->
  exists st', edit_frames st i vehicle dot_product approaching_junction
                waypoint_buffer look_ahead_index = Returns st'.
Proof.
  unfold current_planner_frame, current_collision_frame, current_traffic_light_frame.
  intros Hp Hc Ht Hfr Hla. unfold edit_frames.
  destruct (vector_at_lt _ _ Hp) as (? & -> & _). rewrite Returns_bind.
  destruct (vector_at_lt _ _ Hc) as (? & -> & _). rewrite Returns_bind.
  destruct (vector_at_lt _ _ Ht) as (? & -> & _). rewrite Returns_bind.
  rewrite (proj2 (deque_front_Returns _ _) Hfr), Returns_bind.
  rewrite (proj2 (vector_at_Returns _ _ _) Hla), Returns_bind.
  eexists; reflexivity.
Qed.

Lemma current_frames_kept (st : LocalizationStage) (i : nat) (maintained grown : Buffer)
    (td : TrafficDistributor) :
  let st2 := store_waypoint_buffer
               (with_traffic_distributor (store_waypoint_buffer st i maintained) td)
               i grown in
  current_planner_frame st2 = current_planner_frame st /\
  current_collision_frame st2 = current_collision_frame st /\
  current_traffic_light_frame st2 = current_traffic_light_frame st.
Proof.
  destruct st as [ps cs ts bla blb pfa pfb cfa cfb tfa tfb pms cms tms al ix td0].
  unfold current_planner_frame, current_collision_frame, current_traffic_light_frame,
    store_waypoint_buffer.
  destruct ps, cs, ts; simpl; auto.
Qed.

Lemma Action_vehicle_no_error (fuel i : nat) (st : LocalizationStage) (rs : RandState) :
  (forall w, GetNextWaypoint w <> []) -> in_bounds i st ->
  Action_vehicle fuel i st rs = OutOfFuel \/
  exists st' rs', Action_vehicle fuel i st rs = Returns (st', rs').
Proof.
  intros Hsucc (Hv & Hwb & Hcb & Hp & Hc & Ht). unfold Action_vehicle.
  destruct (vector_at_lt _ _ Hv) as (vehicle & -> & _). rewrite Returns_bind.
  destruct (vector_at_lt _ _ Hwb) as (wb & -> & _). rewrite Returns_bind.
  destruct (vector_at_lt _ _ Hcb) as (cb & -> & _). rewrite Returns_bind.
  set (maintained := initialize (GetLocation vehicle) (purge vehicle (synchronize wb cb))).
  assert (Hm : exists fr, head maintained = Some fr).
  { subst maintained. unfold initialize. destruct (purge _ _); simpl; eauto. }
  destruct Hm as [fr0 Hfr0].
  destruct (assign_lane_change_total vehicle maintained fr0
              (store_waypoint_buffer st i maintained) Hfr0) as (changed & td & -> & Hne).
  rewrite Returns_bind.
  destruct (populate_no_error fuel (horizon_size (GetVelocityLength vehicle)) Hsucc
              changed rs Hne) as [-> | [[grown rs1] Hgrow]]; [now left|].
  rewrite Hgrow, Returns_bind. right.
  destruct changed as [|fr rest]; [congruence|].
  destruct (populate_Returns fuel _ (fr :: rest) rs fr grown rs1 eq_refl Hgrow)
    as (Hhead & _).
  destruct (select_target_Returns (GetVelocityLength vehicle) grown fr Hhead)
    as (kt & target & -> & _). rewrite Returns_bind.
  destruct (look_ahead_Returns (GetVelocityLength vehicle) grown fr Hhead)
    as (p & idx & -> & Hidx). rewrite Returns_bind.
  pose proof (lookup_lt_Some _ _ _ Hidx) as Hlt.
  destruct (junction_filter_total (GetSpeedLimit vehicle) grown fr p idx Hhead ltac:(lia))
    as (approaching & ->). rewrite Returns_bind.
  destruct (current_frames_kept st i maintained grown td) as (Ep & Ec & Et).
  destruct (edit_frames_total
              (store_waypoint_buffer
                 (with_traffic_distributor (store_waypoint_buffer st i maintained) td)
                 i grown)
              i vehicle (output_deviation vehicle (WaypointLocation target)) approaching
              grown idx fr p) as (st' & ->);
    [now rewrite Ep | now rewrite Ec | now rewrite Et | assumption | assumption |].
  rewrite Returns_bind. eauto.
Qed.

Lemma Action_loop_no_error (fuel rounds : nat) :
  (forall w, GetNextWaypoint w <> []) ->
  forall (i : nat) (st : LocalizationStage) (rs : RandState),
  (forall j, i <= j < i + rounds -> in_bounds j st) ->
  Action_loop fuel rounds i st rs = OutOfFuel \/
  exists st' rs', Action_loop fuel rounds i st rs = Returns (st', rs').
Proof.
  intros Hsucc. induction rounds as [|rounds IH]; intros i st rs Hin.
  - right. eexists _, _. reflexivity.
  - simpl.
    destruct (Action_vehicle_no_error fuel i st rs Hsucc (Hin i ltac:(lia)))
      as [-> | (st1 & rs1 & Hone)]; [now left|].
    rewrite Hone, Returns_bind. apply IH.
    intros j Hj.
    apply (in_bounds_untouched _ j st st1 (Action_vehicle_untouched _ _ _ _ _ _ Hone)).
    apply Hin. lia.
Qed.

(** X13. On a map where every waypoint has a successor, [Action] on a range
    of indices that are within the actor list, both buffer lists and the
    three current frames raises no error: no read is out of range and no
    empty buffer is asked for its front or its back.  A run on fuel has
    returned, or the populating loop of some vehicle has not finished. *)
Theorem Action_raises_no_error
    (fuel start_index end_index : nat) (st : LocalizationStage) (rs : RandState) :
  (forall w, GetNextWaypoint w <> []) ->
  (forall i, start_index <= i <= end_index -> in_bounds i st) ->
  Action fuel start_index end_index st rs = OutOfFuel \/
  exists st' rs', Action fuel start_index end_index st rs = Returns (st', rs').
Proof.
  intros Hsucc Hin. unfold Action. apply Action_loop_no_error; [assumption|].
  intros j Hj. apply Hin. lia.
Qed.

(** ** DataSender *)

(** X14. [DataSender] sends to the planner on every call, whatever the
    state of the messenger: the packet carries the recorded state and names
    the frame that the planner selector selects, the recorded state becomes
    the value that [SendData] returns and the selector flips, so that two
    calls in a row bring the selector back. *)
Theorem DataSender_planner_always_sends (st : LocalizationStage) (ms : Messengers) :
  let st' := fst (DataSender st ms) in
  let ms' := snd (DataSender st ms) in
  let planner_data_packet :=
    {| id := planner_messenger_state st;
       data := selected_frame (planner_frame_selector st) |} in
  planner_messenger ms' = snd (SendData (planner_messenger ms) planner_data_packet) /\
  planner_messenger_state st' = fst (SendData (planner_messenger ms) planner_data_packet) /\
  planner_frame_selector st' = negb (planner_frame_selector st) /\
  planner_frame_selector (fst (DataSender st' ms')) = planner_frame_selector st.
Proof.
  unfold DataSender.
  repeat match goal with
         | |- context [SendData ?m ?p] => destruct (SendData m p) eqn:?
         | |- context [if ?c then _ else _] => destruct c eqn:?
         end;
  simpl;
  repeat match goal with
         | |- context [SendData ?m ?p] => destruct (SendData m p) eqn:?
         | |- context [if ?c then _ else _] => destruct c eqn:?
         end;
  simpl; rewrite ?negb_involutive; auto.
Qed.

Lemma DataSender_fields (st : LocalizationStage) (ms : Messengers) :
  let st' := fst (DataSender st ms) in
  buffer_list_a st' = buffer_list_a st /\ buffer_list_b st' = buffer_list_b st /\
  planner_frame_a st' = planner_frame_a st /\ planner_frame_b st' = planner_frame_b st /\
  collision_frame_a st' = collision_frame_a st /\
  collision_frame_b st' = collision_frame_b st /\
  traffic_light_frame_a st' = traffic_light_frame_a st /\
  traffic_light_frame_b st' = traffic_light_frame_b st /\
  actor_list st' = actor_list st /\
  vehicle_id_to_index st' = vehicle_id_to_index st /\
  traffic_distributor st' = traffic_distributor st /\
  planner_frame_selector st' = negb (planner_frame_selector st) /\
  collision_frame_selector st' =
    (if (GetState (collision_messenger ms) =? collision_messenger_state st)%Z
     then collision_frame_selector st else negb (collision_frame_selector st)) /\
  traffic_light_frame_selector st' =
    (if (GetState (traffic_light_messenger ms) =? traffic_light_messenger_state st)%Z
     then traffic_light_frame_selector st else negb (traffic_light_frame_selector st)).
Proof.
  unfold DataSender.
  destruct (SendData (planner_messenger ms) _) as [pstate pm].
  destruct (GetState (collision_messenger ms) =? collision_messenger_state st)%Z;
    destruct (GetState (traffic_light_messenger ms) =? traffic_light_messenger_state st)%Z;
    simpl;
    repeat match goal with
           | |- context [SendData ?m ?p] => destruct (SendData m p) eqn:?
           end;
    simpl; repeat split; reflexivity.
Qed.

(** X15. [DataSender] writes to no buffer, no frame, no entry of the actor
    list or of the index map and not to the traffic distributor.  When it
    sends to the collision stage the two buffer lists change roles: the
    list that [Action] wrote is the copy of the next [Action] and the other
    one its current list; when it does not send, the roles stay. *)
Theorem DataSender_swaps_buffer_lists (st : LocalizationStage) (ms : Messengers) :
  let st' := fst (DataSender st ms) in
  (buffer_list_a st' = buffer_list_a st /\ buffer_list_b st' = buffer_list_b st /\
   planner_frame_a st' = planner_frame_a st /\ planner_frame_b st' = planner_frame_b st /\
   collision_frame_a st' = collision_frame_a st /\
   collision_frame_b st' = collision_frame_b st /\
   traffic_light_frame_a st' = traffic_light_frame_a st /\
   traffic_light_frame_b st' = traffic_light_frame_b st /\
   actor_list st' = actor_list st /\
   vehicle_id_to_index st' = vehicle_id_to_index st /\
   traffic_distributor st' = traffic_distributor st) /\
  (GetState (collision_messenger ms) <> collision_messenger_state st ->
     current_buffer_list st' = copy_buffer_list st /\
     copy_buffer_list st' = current_buffer_list st /\
     current_collision_frame st' = other_collision_frame st) /\
  (GetState (collision_messenger ms) = collision_messenger_state st ->
     current_buffer_list st' = current_buffer_list st /\
     copy_buffer_list st' = copy_buffer_list st /\
     current_collision_frame st' = current_collision_frame st).
Proof.
  intros st'.
  destruct (DataSender_fields st ms)
    as (Ha & Hb & Hpa & Hpb & Hca & Hcb & Hta & Htb & Hal & Hix & Htd & _ & Hsel & _).
  fold st' in Ha, Hb, Hpa, Hpb, Hca, Hcb, Hta, Htb, Hal, Hix, Htd, Hsel.
  split; [repeat split; assumption|].
  unfold current_buffer_list, copy_buffer_list, select_buffer_list,
    current_collision_frame, other_collision_frame, select_frame.
  rewrite Ha, Hb, Hca, Hcb, Hsel.
  split; intros Hstate.
  - apply Z.eqb_neq in Hstate. rewrite Hstate.
    destruct (collision_frame_selector st); simpl; auto.
  - apply Z.eqb_eq in Hstate. rewrite Hstate. auto.
Qed.

(** X16. The [Action] that follows a [DataSender] does not write to what
    was sent: the planner frame named by the planner packet is as
    [DataSender] found it, and so are, when the collision stage or the
    traffic light stage was sent a packet, the frame named by that packet
    and, for the collision stage, the buffer list that the buffer
    references of the frame point into. *)
Theorem Action_leaves_sent_frames
    (fuel start_index end_index : nat) (st st2 : LocalizationStage) (ms : Messengers)
    (rs rs' : RandState) :
  Action fuel start_index end_index (fst (DataSender st ms)) rs = Returns (st2, rs') ->
  frame_of (selected_frame (planner_frame_selector st))
      (planner_frame_a st2) (planner_frame_b st2)
    = frame_of (selected_frame (planner_frame_selector st))
        (planner_frame_a st) (planner_frame_b st) /\
  (GetState (collision_messenger ms) <> collision_messenger_state st ->
     frame_of (selected_frame (collision_frame_selector st))
         (collision_frame_a st2) (collision_frame_b st2)
       = frame_of (selected_frame (collision_frame_selector st))
           (collision_frame_a st) (collision_frame_b st) /\
     select_buffer_list (collision_frame_selector st) st2
       = select_buffer_list (collision_frame_selector st) st) /\
  (GetState (traffic_light_messenger ms) <> traffic_light_messenger_state st ->
     frame_of (selected_frame (traffic_light_frame_selector st))
         (traffic_light_frame_a st2) (traffic_light_frame_b st2)
       = frame_of (selected_frame (traffic_light_frame_selector st))
           (traffic_light_frame_a st) (traffic_light_frame_b st)).
Proof.
  intros H. unfold Action in H.
  destruct (Action_loop_post _ _ _ _ _ _ _ H) as (Hun & _).
  destruct (DataSender_fields st ms)
    as (Ha & Hb & Hpa & Hpb & Hca & Hcb & Hta & Htb & _ & _ & _ & Hps & Hcs & Hts).
  pose proof (same_other_planner_frame _ _ _ Hun) as Hop.
  pose proof (same_other_collision_frame _ _ _ Hun) as Hoc.
  pose proof (same_other_traffic_light_frame _ _ _ Hun) as Hot.
  pose proof (same_copy_buffer_list _ _ _ Hun) as Hcopy.
  unfold other_planner_frame, other_collision_frame, other_traffic_light_frame,
    copy_buffer_list, select_buffer_list, select_frame in Hop, Hoc, Hot, Hcopy.
  rewrite (same_planner_selector _ _ _ Hun), Hps, Hpa, Hpb in Hop.
  rewrite (same_collision_selector _ _ _ Hun), Hcs, Hca, Hcb in Hoc.
  rewrite (same_traffic_light_selector _ _ _ Hun), Hts, Hta, Htb in Hot.
  rewrite (same_collision_selector _ _ _ Hun), Hcs, Ha, Hb in Hcopy.
  unfold frame_of, selected_frame, select_buffer_list.
  split; [|split].
  - destruct (planner_frame_selector st); simpl in Hop; assumption.
  - intros Hstate. apply Z.eqb_neq in Hstate. rewrite Hstate in Hoc, Hcopy.
    destruct (collision_frame_selector st); simpl in Hoc, Hcopy; auto.
  - intros Hstate. apply Z.eqb_neq in Hstate. rewrite Hstate in Hot.
    destruct (traffic_light_frame_selector st); simpl in Hot; assumption.
Qed.

(** ** The constructor *)

Lemma map_find_insert_same (key : ActorId) (value : nat) (m : list (ActorId * nat)) :
  map_find key (map_insert key value m) =
  match map_find key m with Some v => Some v | None => Some value end.
Proof.
  unfold map_insert. destruct (map_find key m) eqn:E; [assumption|].
  simpl. now rewrite Nat.eqb_refl.
Qed.

Lemma map_find_insert_other (key key' : ActorId) (value : nat) (m : list (ActorId * nat)) :
  key <> key' -> map_find key' (map_insert key value m) = map_find key' m.
Proof.
  intros Hne. unfold map_insert. destruct (map_find key m); [reflexivity|].
  simpl. destruct (Nat.eqb_spec key' key); [congruence | reflexivity].
Qed.

Lemma connect_indices_old (actors : list Actor) :
  forall (index : nat) (m : list (ActorId * nat)) (key : ActorId) (v : nat),
  map_find key m = Some v -> map_find key (connect_indices actors index m) = Some v.
Proof.
  induction actors as [|a rest IH]; intros index m key v H; [assumption|].
  simpl. apply IH. destruct (decide (GetId a = key)) as [<-|Hne].
  - now rewrite map_find_insert_same, H.
  - now rewrite map_find_insert_other.
Qed.

Lemma connect_indices_first (actors : list Actor) :
  forall (index : nat) (m : list (ActorId * nat)) (i : nat) (actor : Actor),
  map_find (GetId actor) m = None ->
  actors !! i = Some actor ->
  (forall j a, j < i -> actors !! j = Some a -> GetId a <> GetId actor) ->
  map_find (GetId actor) (connect_indices actors index m) = Some (index + i).
Proof.
  induction actors as [|a rest IH]; intros index m i actor Hm Hi Hfirst; [discriminate|].
  simpl. destruct i as [|i].
  - inversion Hi; subst a. apply connect_indices_old.
    rewrite map_find_insert_same, Hm. f_equal. lia.
  - replace (index + S i) with (S index + i) by lia. apply IH.
    + rewrite map_find_insert_other; [assumption|]. apply (Hfirst 0 a); [lia | reflexivity].
    + exact Hi.
    + intros j a' Hj Ha'. apply (Hfirst (S j) a'); [lia | exact Ha'].
Qed.

Lemma connect_indices_absent (actors : list Actor) :
  forall (index : nat) (m : list (ActorId * nat)) (key : ActorId),
  map_find key m = None -> (forall a, a ∈ actors -> GetId a <> key) ->
  map_find key (connect_indices actors index m) = None.
Proof.
  induction actors as [|a rest IH]; intros index m key Hm Hall; [assumption|].
  simpl. apply IH.
  - rewrite map_find_insert_other; [assumption|]. apply Hall. left.
  - intros a' Ha'. apply Hall. now right.
Qed.

Lemma constructor_Returns (ms : Messengers) (number_of_vehicles pool_size : nat)
    (actors : list Actor) (distributor : TrafficDistributor) (st : LocalizationStage) :
  LocalizationStage_constructor ms number_of_vehicles pool_size actors distributor
    = Returns st ->
  (INT_MIN < GetState (planner_messenger ms))%Z /\
  (INT_MIN < GetState (collision_messenger ms))%Z /\
  (INT_MIN < GetState (traffic_light_messenger ms))%Z /\
  st = {| planner_frame_selector := true;
          collision_frame_selector := true;
          traffic_light_frame_selector := true;
          buffer_list_a := replicate number_of_vehicles [];
          buffer_list_b := replicate number_of_vehicles [];
          planner_frame_a := replicate number_of_vehicles empty_planner_data;
          planner_frame_b := replicate number_of_vehicles empty_planner_data;
          collision_frame_a := replicate number_of_vehicles empty_collision_data;
          collision_frame_b := replicate number_of_vehicles empty_collision_data;
          traffic_light_frame_a := replicate number_of_vehicles empty_traffic_light_data;
          traffic_light_frame_b := replicate number_of_vehicles empty_traffic_light_data;
          planner_messenger_state := (GetState (planner_messenger ms) - 1)%Z;
          collision_messenger_state := (GetState (collision_messenger ms) - 1)%Z;
          traffic_light_messenger_state :=
            (GetState (traffic_light_messenger ms) - 1)%Z;
          actor_list := actors;
          vehicle_id_to_index := connect_indices actors 0 [];
          traffic_distributor := distributor |}.
Proof.
  unfold LocalizationStage_constructor, int_minus_one. intros H.
  destruct (INT_MIN <? GetState (planner_messenger ms))%Z eqn:Ep; simpl in H;
    [|discriminate].
  destruct (GetState (planner_messenger ms) <=? INT_MAX)%Z; [|discriminate].
  simpl in H.
  destruct (INT_MIN <? GetState (collision_messenger ms))%Z eqn:Ec; simpl in H;
    [|discriminate].
  destruct (GetState (collision_messenger ms) <=? INT_MAX)%Z; [|discriminate].
  simpl in H.
  destruct (INT_MIN <? GetState (traffic_light_messenger ms))%Z eqn:Et; simpl in H;
    [|discriminate].
  destruct (GetState (traffic_light_messenger ms) <=? INT_MAX)%Z; [|discriminate].
  simpl in H. apply Z.ltb_lt in Ep, Ec, Et.
  inversion H. auto.
Qed.

(** X17. The index map that the constructor builds sends the id of an actor
    to the first index of the actor list that holds an actor of that id,
    which is the index of the actor when no earlier actor shares its id;
    it has no entry for an id that no actor of the list has, and every
    index it returns is that of an actor with the id asked for. *)
Theorem constructor_connects_indices (ms : Messengers) (number_of_vehicles pool_size : nat)
    (actors : list Actor) (distributor : TrafficDistributor) (st : LocalizationStage) :
  LocalizationStage_constructor ms number_of_vehicles pool_size actors distributor
    = Returns st ->
  (forall i actor, actors !! i = Some actor ->
     (forall j a, j < i -> actors !! j = Some a -> GetId a <> GetId actor) ->
     map_find (GetId actor) (vehicle_id_to_index st) = Some i) /\
  (forall key, (forall a, a ∈ actors -> GetId a <> key) ->
     map_find key (vehicle_id_to_index st) = None) /\
  (forall key i, map_find key (vehicle_id_to_index st) = Some i ->
     exists actor, actors !! i = Some actor /\ GetId actor = key /\
       forall j a, j < i -> actors !! j = Some a -> GetId a <> key).
Proof.
  intros H. destruct (constructor_Returns _ _ _ _ _ _ H) as (_ & _ & _ & ->). simpl.
  split; [|split].
  - intros i actor Hi Hfirst.
    now rewrite (connect_indices_first actors 0 [] i actor eq_refl Hi Hfirst).
  - intros key Hall. now apply connect_indices_absent.
  - intros key i Hfind.
    destruct (list_find (fun a => GetId a = key) actors) as [[j actor]|] eqn:E.
    + apply list_find_Some in E. destruct E as (Hj & Hid & Hfirst).
      assert (Hfirst' : forall k a, k < j -> actors !! k = Some a -> GetId a <> GetId actor).
      { intros k a Hk Ha. rewrite Hid. eapply Hfirst; eassumption. }
      pose proof (connect_indices_first actors 0 [] j actor eq_refl Hj Hfirst') as Hfound.
      rewrite Hid, Hfind in Hfound. inversion Hfound; subst i.
      exists actor. split; [assumption|]. split; [assumption|].
      intros k a Hk Ha. eapply Hfirst; eassumption.
    + apply list_find_None in E. rewrite Forall_forall in E.
      rewrite (connect_indices_absent actors 0 [] key eq_refl) in Hfind; [discriminate|].
      intros a Ha. now apply E.
Qed.

(** X18. The constructor fails only on a messenger whose state is not above
    the least [int], where [GetState() - 1] overflows.  On the stage it
    returns, the recorded state of each messenger is one less than the state
    of the messenger, so that the first [DataSender] sends to all three
    stages the frame a of each pair, with that recorded state, and leaves
    all three selectors on the frame b. *)
Theorem constructor_forces_first_send (ms : Messengers) (number_of_vehicles pool_size : nat)
    (actors : list Actor) (distributor : TrafficDistributor) :
  ((INT_MIN < GetState (planner_messenger ms) <= INT_MAX)%Z ->
   (INT_MIN < GetState (collision_messenger ms) <= INT_MAX)%Z ->
   (INT_MIN < GetState (traffic_light_messenger ms) <= INT_MAX)%Z ->
   exists st,
     LocalizationStage_constructor ms number_of_vehicles pool_size actors distributor
       = Returns st) /\
  (forall st,
     LocalizationStage_constructor ms number_of_vehicles pool_size actors distributor
       = Returns st ->
     let st' := fst (DataSender st ms) in
     let ms' := snd (DataSender st ms) in
     planner_messenger ms' =
       snd (SendData (planner_messenger ms)
              {| id := (GetState (planner_messenger ms) - 1)%Z; data := frame_a |}) /\
     collision_messenger ms' =
       snd (SendData (collision_messenger ms)
              {| id := (GetState (collision_messenger ms) - 1)%Z; data := frame_a |}) /\
     traffic_light_messenger ms' =
       snd (SendData (traffic_light_messenger ms)
              {| id := (GetState (traffic_light_messenger ms) - 1)%Z; data := frame_a |}) /\
     planner_frame_selector st' = false /\
     collision_frame_selector st' = false /\
     traffic_light_frame_selector st' = false).
Proof.
  split.
  - intros [Hp1 Hp2] [Hc1 Hc2] [Ht1 Ht2].
    unfold LocalizationStage_constructor, int_minus_one.
    apply Z.ltb_lt in Hp1, Hc1, Ht1. apply Z.leb_le in Hp2, Hc2, Ht2.
    rewrite Hp1, Hp2, Hc1, Hc2, Ht1, Ht2. simpl. eexists. reflexivity.
  - intros st H. destruct (constructor_Returns _ _ _ _ _ _ H) as (_ & _ & _ & ->).
    unfold DataSender. simpl.
    destruct (SendData (planner_messenger ms) _) as [pstate pm] eqn:Ep.
    assert (Hc : (GetState (collision_messenger ms)
                  =? GetState (collision_messenger ms) - 1)%Z = false)
      by (apply Z.eqb_neq; lia).
    assert (Ht : (GetState (traffic_light_messenger ms)
                  =? GetState (traffic_light_messenger ms) - 1)%Z = false)
      by (apply Z.eqb_neq; lia).
    rewrite Hc, Ht. simpl.
    destruct (SendData (collision_messenger ms) _) as [cstate cm] eqn:Ec.
    destruct (SendData (traffic_light_messenger ms) _) as [tstate tm] eqn:Et.
    simpl. repeat split; reflexivity.
Qed.


(** ** Ticks *)

(** X20. Two calls of [Action] on the same range with a [DataSender] in
    between that sends to the collision stage fill both buffer lists: for
    every vehicle of the range the buffer that the first call wrote is kept
    in the copy list of the second call, and the buffer that the second call
    wrote is in its current list; neither is empty. *)
Theorem two_ticks_fill_both_lists
    (fuel fuel' start_index end_index : nat) (st st1 st3 : LocalizationStage)
    (ms : Messengers) (rs rs1 rs3 : RandState) :
  Action fuel start_index end_index st rs = Returns (st1, rs1) ->
  GetState (collision_messenger ms) <> collision_messenger_state st1 ->
  Action fuel' start_index end_index (fst (DataSender st1 ms)) rs1 = Returns (st3, rs3) ->
  forall i, start_index <= i <= end_index ->
    exists first second,
      current_buffer_list st1 !! i = Some first /\ first <> [] /\
      copy_buffer_list st3 !! i = Some first /\
      current_buffer_list st3 !! i = Some second /\ second <> [].
Proof.
  intros H1 Hstate H3 i Hi. unfold Action in H1, H3.
  destruct (Action_loop_Returns _ _ _ _ _ _ _ H1) as (_ & _ & _ & _ & Hfirst).
  destruct (Action_loop_Returns _ _ _ _ _ _ _ H3) as (Hcopy & _ & _ & _ & Hsecond).
  destruct (Hfirst i ltac:(lia)) as (first & Hf & Hfne).
  destruct (Hsecond i ltac:(lia)) as (second & Hs & Hsne).
  exists first, second. split; [assumption|]. split; [assumption|].
  split; [|split; assumption].
  rewrite Hcopy.
  destruct (DataSender_fields st1 ms) as (Ha & Hb & _ & _ & _ & _ & _ & _ & _ & _ & _ & _ & Hsel & _).
  apply Z.eqb_neq in Hstate. rewrite Hstate in Hsel.
  unfold copy_buffer_list, current_buffer_list, select_buffer_list in *.
  rewrite Hsel, Ha, Hb, negb_involutive. assumption.
Qed.

Lemma Action_loop_app (fuel r1 r2 : nat) :
  forall (i : nat) (st : LocalizationStage) (rs : RandState),
  Action_loop fuel (r1 + r2) i st rs =
    ('(st1, rs1) ← Action_loop fuel r1 i st rs; Action_loop fuel r2 (i + r1) st1 rs1).
Proof.
  induction r1 as [|r1 IH]; intros i st rs; simpl.
  - now rewrite Nat.add_0_r.
  - destruct (Action_vehicle fuel i st rs) as [[st1 rs1]| | |]; simpl; try reflexivity.
    rewrite IH. now replace (S i + r1) with (i + S r1) by lia.
Qed.

(** X21. [Action] on a range is [Action] on the first part of the range
    followed, when that returns, by [Action] on the rest, on the stage and
    the random state that the first part has left; [Action] on an empty
    range ([start_index] above [end_index]) returns the stage and the
    random state as they are. *)
Theorem Action_splits
    (fuel start_index middle end_index : nat) (st : LocalizationStage) (rs : RandState) :
  (start_index <= S middle -> middle <= end_index ->
   Action fuel start_index end_index st rs =
     ('(st1, rs1) ← Action fuel start_index middle st rs;
      Action fuel (S middle) end_index st1 rs1)) /\
  (end_index < start_index ->
   Action fuel start_index end_index st rs = Returns (st, rs)).
Proof.
  split.
  - intros H1 H2. unfold Action.
    replace (S end_index - start_index)
      with ((S middle - start_index) + (S end_index - S middle)) by lia.
    rewrite Action_loop_app.
    now replace (start_index + (S middle - start_index)) with (S middle) by lia.
  - intros H. unfold Action.
    now replace (S end_index - start_index) with 0 by lia.
Qed.

(** X22. When [DistanceSquared] is symmetric, the buffer that the
    populating loop returns is long enough for the walks: the steering
    target is at least [target_point_distance] from the front and the
    look-ahead point at least [look_ahead_distance], in squared distance;
    neither walk stops for want of entries. *)
Theorem populated_buffer_reaches_distances
    (fuel : nat) (vehicle_velocity : float) (waypoint_buffer grown : Buffer)
    (rs rs' : RandState) :
  (forall a b, DistanceSquared a b = DistanceSquared b a) ->
  populate fuel (horizon_size vehicle_velocity) waypoint_buffer rs = Returns (grown, rs') ->
  exists fr target look_ahead_point look_ahead_index,
    head grown = Some fr /\
    select_target vehicle_velocity grown = Returns target /\
    (pow2 (target_point_distance vehicle_velocity) <= DistanceSquared fr target)%Q /\
    look_ahead vehicle_velocity grown = Returns (look_ahead_point, look_ahead_index) /\
    (pow2 (look_ahead_distance vehicle_velocity)
       <= DistanceSquared fr look_ahead_point)%Q.
Proof.
  intros Hsym Hrun.
  destruct waypoint_buffer as [|fr b]; [destruct fuel; discriminate|].
  destruct (populate_Returns fuel _ (fr :: b) rs fr grown rs' eq_refl Hrun)
    as (Hhead & (bk & Hbk & Hbeyond) & _).
  rewrite Hsym in Hbeyond.
  destruct (distances_ordered vehicle_velocity) as (Ht0 & Htl & Hlh).
  assert (Hl0 : (0 <= look_ahead_distance vehicle_velocity)%Q) by lra.
  pose proof (pow2_le _ _ Ht0 Htl) as Hsq1.
  pose proof (pow2_le _ _ Hl0 Hlh) as Hsq2.
  destruct (select_target_Returns vehicle_velocity grown fr Hhead)
    as (kt & target & Ht & Hkt & _ & Htstop).
  assert (H0 : grown !! 0 = Some fr) by (destruct grown; exact Hhead).
  destruct (look_ahead_loop_first grown (look_ahead_distance vehicle_velocity) fr Hhead
              (S (length grown)) 0 0 fr H0 eq_refl ltac:(lia) ltac:(lia))
    as (p & kl & Hl & Hkl & _ & _ & Hlstop).
  exists fr, target, p, kl. split; [assumption|]. split; [assumption|].
  rewrite last_lookup in Hbk.
  split; [|split].
  - destruct Htstop as [|Hlast]; [assumption|].
    replace (pred (length grown)) with kt in Hbk by lia.
    rewrite Hkt in Hbk. inversion Hbk; subst bk. lra.
  - unfold look_ahead. now rewrite (proj2 (deque_front_Returns _ _) Hhead), Returns_bind.
  - destruct Hlstop as [|Hlast]; [assumption|].
    replace (pred (length grown)) with kl in Hbk by lia.
    rewrite Hkl in Hbk. inversion Hbk; subst bk. lra.
Qed.

End Further.

(** * The further properties at work on the small world *)

(** X1 on the straight road. *)
Lemma synchronize_fronts_agree_witness :
  exists w', head (@synchronize road [wp0; wp1] [wp3]) = Some w' /\
             @geo_ids road w' = @geo_ids road wp3.
Proof.
  exact (proj1 (@synchronize_fronts_agree road [wp0; wp1] [wp3] wp0 wp3 eq_refl eq_refl)).
Defined.

(** X2: the car at position 30 has [wp2] ahead. *)
Lemma purge_idempotent_witness :
  (0 < @signed_deviation road (parked_at 30%Q 30%Q) wp2)%Q /\
  @purge road (parked_at 30%Q 30%Q) [wp2; wp3] = [wp2; wp3].
Proof.
  assert (H : (0 < @signed_deviation road (parked_at 30%Q 30%Q) wp2)%Q)
    by (vm_compute; reflexivity).
  split; [exact H|].
  exact (proj2 (@purge_idempotent road (parked_at 30%Q 30%Q) [wp2; wp3]) wp2 eq_refl H).
Defined.

(** X4 and X5 on the straight road, which has no fork. *)
Lemma populate_settled_witness :
  @populate road 10 (horizon_size 0%Q) [wp0] 0 = Returns ([wp0; wp1; wp2], 0) /\
  forall fuel' rs'',
    @populate road (S fuel') (horizon_size 0%Q) [wp0; wp1; wp2] rs''
      = Returns ([wp0; wp1; wp2], rs'').
Proof.
  assert (H : @populate road 10 (horizon_size 0%Q) [wp0] 0 = Returns ([wp0; wp1; wp2], 0))
    by (vm_compute; reflexivity).
  split; [exact H|].
  exact (@populate_settled road 10 (horizon_size 0%Q) [wp0] [wp0; wp1; wp2] 0 0 H).
Defined.

Lemma populate_without_forks_witness :
  (forall w, length (@GetNextWaypoint road w) <= 1) /\
  @populate road 10 (horizon_size 0%Q) [wp0] 0 = Returns ([wp0; wp1; wp2], 0) /\
  forall rs2, @populate road 10 (horizon_size 0%Q) [wp0] rs2 = Returns ([wp0; wp1; wp2], rs2).
Proof.
  assert (Hs : forall w, length (@GetNextWaypoint road w) <= 1) by (intros []; simpl; lia).
  assert (H : @populate road 10 (horizon_size 0%Q) [wp0] 0 = Returns ([wp0; wp1; wp2], 0))
    by (vm_compute; reflexivity).
  split; [exact Hs|]. split; [exact H|].
  exact (proj2 (@populate_without_forks road 10 (horizon_size 0%Q) Hs
                  [wp0] [wp0; wp1; wp2] 0 0 H)).
Defined.

(** X6: the parked car has [wp1] straight ahead. *)
Lemma output_deviation_range_witness :
  (-2 <= @output_deviation road parked (@WaypointLocation road wp1))%Q /\
  (@output_deviation road parked (@WaypointLocation road wp1) <= 2)%Q.
Proof.
  pose proof (@output_deviation_range road parked (@WaypointLocation road wp1)) as H.
  cbv zeta in H.
  assert (Hlo : (-1 <= @DeviationDotProduct road parked (@WaypointLocation road wp1))%Q)
    by (vm_compute; discriminate).
  assert (Hhi : (@DeviationDotProduct road parked (@WaypointLocation road wp1) <= 1)%Q)
    by (vm_compute; discriminate).
  destruct (H Hlo Hhi) as (H1 & H2 & _). split; assumption.
Defined.


Lemma target_not_beyond_look_ahead_witness :
  @select_target road 0%Q [wp0; wp1; wp2] = Returns wp1 /\
  @look_ahead road 0%Q [wp0; wp1; wp2] = Returns (wp1, 1) /\
  exists k, [wp0; wp1; wp2] !! k = Some wp1 /\ k <= 1.
Proof.
  assert (Ht : @select_target road 0%Q [wp0; wp1; wp2] = Returns wp1)
    by (vm_compute; reflexivity).
  assert (Hl : @look_ahead road 0%Q [wp0; wp1; wp2] = Returns (wp1, 1))
    by (vm_compute; reflexivity).
  split; [exact Ht|]. split; [exact Hl|].
  exact (@target_not_beyond_look_ahead road 0%Q [wp0; wp1; wp2] wp1 wp1 1 Ht Hl).
Defined.

(** X9 on a buffer of three entries. *)
Lemma DrawBuffer_draws_first_five_witness :
  @DrawBuffer road [wp0; wp1; wp2] []
    = Returns (@red_point road <$> [wp0; wp1; wp2]) /\
  (@red_point road <$> take 5 [wp0; wp1; wp2]) !! 1 = Some (@red_point road wp1).
Proof.
  split.
  - exact (proj1 (@DrawBuffer_draws_first_five road [wp0; wp1; wp2] [])).
  - refine (proj1 (proj2 (proj2 (@DrawBuffer_draws_first_five road [wp0; wp1; wp2] []))
                     1 wp1 _ eq_refl)).
    lia.
Defined.

(** X10 to X13 on the parked car. *)
Lemma Action_touches_only_its_range_witness :
  @Action road 10 0 0 road_stage 0 = Returns (road_stage_after, 0) /\
  @untouched_outside road (fun j => 0 <= j <= 0) road_stage road_stage_after.
Proof.
  assert (H : @Action road 10 0 0 road_stage 0 = Returns (road_stage_after, 0))
    by (vm_compute; reflexivity).
  split; [exact H|].
  exact (@Action_touches_only_its_range road 10 0 0 road_stage road_stage_after 0 0 H).
Defined.

Lemma Action_emits_witness :
  @Action road 10 0 0 road_stage 0 = Returns (road_stage_after, 0) /\
  @emitted road 0 road_stage_after.
Proof.
  assert (H : @Action road 10 0 0 road_stage 0 = Returns (road_stage_after, 0))
    by (vm_compute; reflexivity).
  split; [exact H|].
  exact (@Action_emits road 10 0 0 road_stage road_stage_after 0 0 H 0
           (conj (le_n 0) (le_n 0))).
Defined.

Lemma Action_needs_bounds_witness :
  @in_bounds road 0 road_stage /\
  @Action road 10 1 1 road_stage 0 = OutOfRange.
Proof.
  split.
  - refine (proj1 (@Action_needs_bounds road 10 0 0 road_stage 0) road_stage_after 0 _ 0
              (conj (le_n 0) (le_n 0))).
    vm_compute. reflexivity.
  - refine (proj2 (proj2 (@Action_needs_bounds road 10 1 1 road_stage 0) (le_n 1) _)).
    left. simpl. lia.
Defined.

Lemma Action_raises_no_error_witness :
  (forall w, @GetNextWaypoint road w <> []) /\
  (forall i, 0 <= i <= 0 -> @in_bounds road i road_stage) /\
  (@Action road 10 0 0 road_stage 0 = OutOfFuel \/
   exists st' rs', @Action road 10 0 0 road_stage 0 = Returns (st', rs')).
Proof.
  assert (Hs : forall w, @GetNextWaypoint road w <> []) by (intros []; discriminate).
  assert (Hb : forall i, 0 <= i <= 0 -> @in_bounds road i road_stage).
  { intros i Hi. assert (i = 0) by lia. subst i. vm_compute. repeat split; lia. }
  split; [exact Hs|]. split; [exact Hb|].
  exact (@Action_raises_no_error road 10 0 0 road_stage 0 Hs Hb).
Defined.

(** X15 and X16: the collision stage has taken the last packet, so the
    buffer lists change roles and the second [Action] leaves the list and
    the frames of the first alone. *)
Lemma DataSender_swaps_buffer_lists_witness :
  @GetState road (collision_messenger messengers)
    <> collision_messenger_state road_stage_after /\
  @current_buffer_list road (fst (@DataSender road road_stage_after messengers))
    = @copy_buffer_list road road_stage_after.
Proof.
  assert (Hc : @GetState road (collision_messenger messengers)
               <> collision_messenger_state road_stage_after) by discriminate.
  split; [exact Hc|].
  pose proof (@DataSender_swaps_buffer_lists road road_stage_after messengers) as H.
  cbv zeta in H. exact (proj1 (proj1 (proj2 H) Hc)).
Defined.

Lemma Action_leaves_sent_frames_witness :
  @Action road 10 0 0 (fst (@DataSender road road_stage_after messengers)) 0
    = Returns (road_stage_next, 0) /\
  planner_frame_a road_stage_next = planner_frame_a road_stage_after /\
  buffer_list_a road_stage_next = buffer_list_a road_stage_after.
Proof.
  assert (H : @Action road 10 0 0 (fst (@DataSender road road_stage_after messengers)) 0
              = Returns (road_stage_next, 0)) by (vm_compute; reflexivity).
  assert (Hc : @GetState road (collision_messenger messengers)
               <> collision_messenger_state road_stage_after) by discriminate.
  split; [exact H|].
  destruct (@Action_leaves_sent_frames road 10 0 0 road_stage_after road_stage_next
              messengers 0 0 H) as (Hp & Hcol & _).
  split; [exact Hp | exact (proj2 (Hcol Hc))].
Defined.

(** X17 to X19: the constructor on the parked car. *)
Lemma constructor_connects_indices_witness :
  @LocalizationStage_constructor road fresh_messengers 1 1 [parked] [] = Returns road_stage /\
  @map_find 7 (vehicle_id_to_index road_stage) = Some 0.
Proof.
  assert (H : @LocalizationStage_constructor road fresh_messengers 1 1 [parked] []
              = Returns road_stage) by (vm_compute; reflexivity).
  split; [exact H|].
  refine (proj1 (@constructor_connects_indices road fresh_messengers 1 1 [parked] []
                   road_stage H) 0 parked eq_refl _).
  intros j a Hj. lia.
Defined.

Lemma constructor_forces_first_send_witness :
  @LocalizationStage_constructor road fresh_messengers 1 1 [parked] [] = Returns road_stage /\
  collision_frame_selector (fst (@DataSender road road_stage fresh_messengers)) = false /\
  traffic_light_frame_selector (fst (@DataSender road road_stage fresh_messengers)) = false.
Proof.
  assert (H : @LocalizationStage_constructor road fresh_messengers 1 1 [parked] []
              = Returns road_stage) by (vm_compute; reflexivity).
  split; [exact H|].
  pose proof (proj2 (@constructor_forces_first_send road fresh_messengers 1 1 [parked] [])
                road_stage H) as Hsend.
  cbv zeta in Hsend. destruct Hsend as (_ & _ & _ & _ & Hc & Ht).
  split; assumption.
Defined.


(** X20 and X21 on the parked car; X22 on the straight road. *)
Lemma two_ticks_fill_both_lists_witness :
  @Action road 10 0 0 road_stage 0 = Returns (road_stage_after, 0) /\
  @Action road 10 0 0 (fst (@DataSender road road_stage_after messengers)) 0
    = Returns (road_stage_next, 0) /\
  exists first second,
    @current_buffer_list road road_stage_after !! 0 = Some first /\ first <> [] /\
    @copy_buffer_list road road_stage_next !! 0 = Some first /\
    @current_buffer_list road road_stage_next !! 0 = Some second /\ second <> [].
Proof.
  assert (H1 : @Action road 10 0 0 road_stage 0 = Returns (road_stage_after, 0))
    by (vm_compute; reflexivity).
  assert (H3 : @Action road 10 0 0 (fst (@DataSender road road_stage_after messengers)) 0
               = Returns (road_stage_next, 0)) by (vm_compute; reflexivity).
  assert (Hc : @GetState road (collision_messenger messengers)
               <> collision_messenger_state road_stage_after) by discriminate.
  split; [exact H1|]. split; [exact H3|].
  exact (@two_ticks_fill_both_lists road 10 10 0 0 road_stage road_stage_after
           road_stage_next messengers 0 0 0 H1 Hc H3 0 (conj (le_n 0) (le_n 0))).
Defined.

Lemma Action_splits_witness :
  @Action road 10 1 0 road_stage 0 = Returns (road_stage, 0) /\
  @Action road 10 0 0 road_stage 0 =
    ('(st1, rs1) ← @Action road 10 0 0 road_stage 0; @Action road 10 1 0 st1 rs1).
Proof.
  split.
  - refine (proj2 (@Action_splits road 10 1 0 0 road_stage 0) _). lia.
  - refine (proj1 (@Action_splits road 10 0 0 0 road_stage 0) _ _); lia.
Defined.

Lemma populated_buffer_reaches_distances_witness :
  (forall a b, @DistanceSquared road a b = @DistanceSquared road b a) /\
  @populate road 10 (horizon_size 0%Q) [wp0] 0 = Returns ([wp0; wp1; wp2], 0) /\
  exists fr target look_ahead_point look_ahead_index,
    head [wp0; wp1; wp2] = Some fr /\
    @select_target road 0%Q [wp0; wp1; wp2] = Returns target /\
    (pow2 (target_point_distance 0%Q) <= @DistanceSquared road fr target)%Q /\
    @look_ahead road 0%Q [wp0; wp1; wp2] = Returns (look_ahead_point, look_ahead_index) /\
    (pow2 (look_ahead_distance 0%Q) <= @DistanceSquared road fr look_ahead_point)%Q.
Proof.
  assert (Hsym : forall a b, @DistanceSquared road a b = @DistanceSquared road b a)
    by (intros [] []; reflexivity).
  assert (H : @populate road 10 (horizon_size 0%Q) [wp0] 0 = Returns ([wp0; wp1; wp2], 0))
    by (vm_compute; reflexivity).
  split; [exact Hsym|]. split; [exact H|].
  exact (@populated_buffer_reaches_distances road 10 0%Q [wp0] [wp0; wp1; wp2] 0 0 Hsym H).
Defined.
